(** * OSM entity store and multipolygon assembler (tilemaker, include/osm_store.h)

    A shallow embedding of the node, way and relation stores, of the
    memory-mapped arena with its resize-and-retry loop, and of the geometry
    assembler (way -> linestring, relation -> multipolygon ring stitching),
    followed by the properties of the specification that concern them. *)

From Stdlib Require Import ZArith NArith PrimFloat Uint63 Lia.
From stdpp Require Import gmap strings list pretty.

(** ** Identifiers and coordinates (coordinates.h) *)

(** [NodeID] is a 64-bit unsigned integer, [WayID] a 64-bit signed one; no
    arithmetic is done on either, they are only compared and used as keys. *)
Abbreviation NodeID := N (only parsing).
Abbreviation WayID := Z (only parsing).
Abbreviation NodeVec := (list N) (only parsing).
Abbreviation WayVec := (list Z) (only parsing).

(** Two 32-bit integers in units of 1e-7 degree; [LatpLon()] is the zero pair. *)
Record LatpLon := mkLatpLon { latp : Z; lon : Z }.

Definition LatpLon_zero : LatpLon := mkLatpLon 0 0.

Global Instance LatpLon_eq_dec : EqDecision LatpLon.
Proof. solve_decision. Defined.

(** A [Point] is a pair of doubles (x, y). *)
Abbreviation Point := (float * float)%type (only parsing).
Abbreviation Linestring := (list (float * float)) (only parsing).
Abbreviation Ring := (list (float * float)) (only parsing).

Record Polygon := mkPolygon { outer : Ring; inners : list Ring }.

Abbreviation MultiPolygon := (list Polygon) (only parsing).

(** Conversion of a 32-bit integer to double (exact), as done by the usual
    arithmetic conversions in [ll.lon/10000000.0]; doubles are Rocq's
    binary64 floats. *)
Definition int_to_double (z : Z) : float :=
  if (z <? 0)%Z then PrimFloat.opp (PrimFloat.of_uint63 (Uint63.of_Z (- z)))
  else PrimFloat.of_uint63 (Uint63.of_Z z).

(** [geom::make<Point>(ll.lon/10000000.0, ll.latp/10000000.0)] *)
Definition make_Point (ll : LatpLon) : Point :=
  (PrimFloat.div (int_to_double (lon ll)) 10000000%float,
   PrimFloat.div (int_to_double (latp ll)) 10000000%float).

(** ** Outcomes

    [Raise] is a C++ exception, [Undefined] is undefined behaviour (reading
    through an empty range or a dangling handle), [OutOfFuel] is a loop of the
    model that ran out of fuel. *)

Inductive exn :=
| bad_alloc                       (* boost::interprocess::bad_alloc *)
| out_of_range (what : string).   (* std::out_of_range *)

Global Instance exn_eq_dec : EqDecision exn.
Proof. solve_decision. Defined.

Inductive result (A : Type) :=
| Val (a : A)
| Raise (e : exn)
| Undefined
| OutOfFuel.

Arguments Val {A} a.
Arguments Raise {A} e.
Arguments Undefined {A}.
Arguments OutOfFuel {A}.

Global Instance result_ret : MRet result := fun A a => Val a.

Global Instance result_bind : MBind result := fun A B f r =>
  match r with
  | Val a => f a
  | Raise e => Raise e
  | Undefined => Undefined
  | OutOfFuel => OutOfFuel
  end.

(** ** Views of data structures *)

(** [*way.begin] and [*std::prev(way.end)]: undefined on an empty range. *)
Definition front {A} (v : list A) : result A :=
  match head v with Some a => Val a | None => Undefined end.

Definition back {A} (v : list A) : result A :=
  match last v with Some a => Val a | None => Undefined end.

(** [isClosed(way)]: [*way.begin == *std::prev(way.end)]. *)
Definition isClosed (way : NodeVec) : result bool :=
  a ← front way; b ← back way; mret (N.eqb a b).

(** ** Node store, hash-map variant ([NodeStore]) *)

Module NodeStore.

Definition at_ (mLatpLons : gmap N LatpLon) (i : NodeID) : result LatpLon :=
  match mLatpLons !! i with
  | Some c => Val c
  | None => Raise (out_of_range ("Could not find node " +:+ pretty i))
  end.

Definition count (mLatpLons : gmap N LatpLon) (i : NodeID) : nat :=
  match mLatpLons !! i with Some _ => 1 | None => 0 end.

Definition size (mLatpLons : gmap N LatpLon) : nat := base.size mLatpLons.

(** [mLatpLons->emplace(i, coord)]: nothing is stored when the key is
    already there. *)
Definition insert_back (i : NodeID) (coord : LatpLon)
    (mLatpLons : gmap N LatpLon) : gmap N LatpLon :=
  match mLatpLons !! i with
  | Some _ => mLatpLons
  | None => <[i := coord]> mLatpLons
  end.

Definition clear (mLatpLons : gmap N LatpLon) : gmap N LatpLon := ∅.

End NodeStore.

(** ** Node store, dense variant ([NodeStoreCompact]) *)

Module NodeStoreCompact.

Definition size (mLatpLons : list LatpLon) : nat := length mLatpLons.

Definition at_ (mLatpLons : list LatpLon) (i : NodeID) : result LatpLon :=
  if (N.of_nat (length mLatpLons) <=? i)%N
  then Raise (out_of_range ("Could not find node " +:+ pretty i))
  else match mLatpLons !! N.to_nat i with
       | Some c => Val c
       | None => Raise (out_of_range "vector::at")
       end.

(** [mLatpLons->resize(nodes)]: truncates, or pads with zero pairs. *)
Definition reserve (nodes : N) (mLatpLons : list LatpLon) : list LatpLon :=
  take (N.to_nat nodes) mLatpLons
    ++ replicate (N.to_nat nodes - length mLatpLons) LatpLon_zero.

Definition insert_back (i : NodeID) (coord : LatpLon)
    (mLatpLons : list LatpLon) : result (list LatpLon) :=
  if (N.of_nat (length mLatpLons) <=? i)%N
  then Raise (out_of_range
                ("Failed to store node " +:+ pretty i +:+ ", index out of range"))
  else Val (<[N.to_nat i := coord]> mLatpLons).

(** [std::fill(begin, end, LatpLon())] *)
Definition clear (mLatpLons : list LatpLon) : list LatpLon :=
  replicate (length mLatpLons) LatpLon_zero.

End NodeStoreCompact.

(** ** Way store *)

Module WayStore.

Definition at_ (mNodeLists : gmap Z (list N)) (i : WayID) : result NodeVec :=
  match mNodeLists !! i with
  | Some way => Val way
  | None => Raise (out_of_range ("Could not find way " +:+ pretty i))
  end.

Definition count (mNodeLists : gmap Z (list N)) (i : WayID) : nat :=
  match mNodeLists !! i with Some _ => 1 | None => 0 end.

(** [emplace(piecewise_construct, i, (begin, end))] and
    [result.first->second]: the map after the call, and the vector that is
    stored under [i] in it (the one the returned reference designates). *)
Definition insert_back (i : WayID) (nodeVec : NodeVec)
    (mNodeLists : gmap Z (list N)) : gmap Z (list N) * NodeVec :=
  match mNodeLists !! i with
  | Some way => (mNodeLists, way)
  | None => (<[i := nodeVec]> mNodeLists, nodeVec)
  end.

Definition clear (mNodeLists : gmap Z (list N)) : gmap Z (list N) := ∅.

Definition size (mNodeLists : gmap Z (list N)) : nat := base.size mNodeLists.

End WayStore.

(** ** Relation store *)

Module RelationStore.

Abbreviation relation_entry_t := (list Z * list Z)%type (only parsing).

Definition insert_front (i : WayID) (outerWayVec innerWayVec : WayVec)
    (mOutInLists : gmap Z (list Z * list Z))
    : gmap Z (list Z * list Z) * relation_entry_t :=
  match mOutInLists !! i with
  | Some entry => (mOutInLists, entry)
  | None => (<[i := (outerWayVec, innerWayVec)]> mOutInLists,
             (outerWayVec, innerWayVec))
  end.

(** Modelled from the spec: [RelationStore::at] is declared in the header
    and defined in a source file that is not among the sources at hand; it
    mirrors the way store (lookup failing with NotFound). *)
Definition at_ (mOutInLists : gmap Z (list Z * list Z)) (i : WayID)
    : result relation_entry_t :=
  match mOutInLists !! i with
  | Some entry => Val entry
  | None => Raise (out_of_range ("Could not find relation " +:+ pretty i))
  end.

(** Modelled from the spec: [RelationStore::count], declared only; mirrors
    the way store. *)
Definition count (mOutInLists : gmap Z (list Z * list Z)) (i : WayID) : nat :=
  match mOutInLists !! i with Some _ => 1 | None => 0 end.

(** Modelled from the spec: [RelationStore::clear], declared only; empties
    the map, as the way store does. *)
Definition clear (mOutInLists : gmap Z (list Z * list Z))
    : gmap Z (list Z * list Z) := ∅.

(** Modelled from the spec: [RelationStore::size], declared only; the
    number of stored relations. *)
Definition size (mOutInLists : gmap Z (list Z * list Z)) : nat :=
  base.size mOutInLists.

End RelationStore.

(** ** The mapped file and the façade state *)

Inductive NodeStoreT :=
| Compact (mLatpLons : list LatpLon)     (* NodeStoreCompact, the default *)
| Sparse (mLatpLons : gmap N LatpLon).   (* NodeStore *)

(** The three deques of one [generated] slot. *)
Record generated := mkGenerated {
  points_store : list Point;
  linestring_store : list Linestring;
  multi_polygon_store : list MultiPolygon
}.

(** The named objects that live in the managed mapped file; the member
    pointers of the store ([nodes.mLatpLons], [ways.mNodeLists], ...) are
    bound to them by [reopen]. *)
Record Segment := mkSegment {
  node_store : NodeStoreT;
  way_store : gmap Z (list N);
  relation_store : gmap Z (list Z * list Z);
  osm_generated : generated;
  shp_generated : generated
}.

(** [file_size] is the size of the backing file on disk, [map_size] the
    64-bit member of the same name. *)
Record OSMStore := mkOSMStore {
  mmap_file : Segment;
  file_size : N;
  map_size : N
}.

Inductive which := osm | shp.

(** A handle is an offset into the mapped file; an object that never moves
    is identified by the container it lives in and its key or position. *)
Inductive handle_t :=
| way_handle (i : Z)
| relation_handle (i : Z)
| point_handle (g : which) (k : nat)
| linestring_handle (g : which) (k : nat)
| multi_polygon_handle (g : which) (k : nat).

Definition init_map_size : N := 1024000000.

Definition size_t_modulus : N := 2 ^ 64.

(** What the segment manager of the mapped file (Boost.Interprocess) decides:
    how many bytes a given content takes, and the largest vector it can
    hold. An allocation throws [bad_alloc] when the content it would produce
    does not fit in the file; nothing else is assumed of [footprint]. *)
Class SegmentManager := {
  footprint : Segment → N;
  max_size : N
}.

(** Boost.Geometry's [within] and [correct]. *)
Class BoostGeometry := {
  within : Ring → Ring → bool;
  correct_polygon : Polygon → Polygon;
  correct : MultiPolygon → MultiPolygon
}.

Definition set_segment (seg : Segment) (st : OSMStore) : OSMStore :=
  mkOSMStore seg (file_size st) (map_size st).

Definition set_node_store (n : NodeStoreT) (seg : Segment) : Segment :=
  mkSegment n (way_store seg) (relation_store seg)
            (osm_generated seg) (shp_generated seg).

Definition set_way_store (w : gmap Z (list N)) (seg : Segment) : Segment :=
  mkSegment (node_store seg) w (relation_store seg)
            (osm_generated seg) (shp_generated seg).

Definition set_relation_store (r : gmap Z (list Z * list Z)) (seg : Segment)
    : Segment :=
  mkSegment (node_store seg) (way_store seg) r
            (osm_generated seg) (shp_generated seg).

Definition get_generated (g : which) (seg : Segment) : generated :=
  match g with osm => osm_generated seg | shp => shp_generated seg end.

Definition set_generated (g : which) (v : generated) (seg : Segment) : Segment :=
  match g with
  | osm => mkSegment (node_store seg) (way_store seg) (relation_store seg)
                     v (shp_generated seg)
  | shp => mkSegment (node_store seg) (way_store seg) (relation_store seg)
                     (osm_generated seg) v
  end.

(** Sequencing of two steps that may throw, on the store they mutate. *)
Definition and_then {A B} (r : result A * OSMStore)
    (k : A → OSMStore → result B * OSMStore) : result B * OSMStore :=
  match r with
  | (Val a, st) => k a st
  | (Raise e, st) => (Raise e, st)
  | (Undefined, st) => (Undefined, st)
  | (OutOfFuel, st) => (OutOfFuel, st)
  end.

Section Store.

Context `{SM : SegmentManager}.

(** An allocating step that turns the content into [seg]: it either fits
    and is done, or [bad_alloc] is thrown and nothing has changed. *)
Definition allocating {A} (seg : Segment) (a : A) (st : OSMStore)
    : result A * OSMStore :=
  if (footprint seg <=? file_size st)%N
  then (Val a, set_segment seg st)
  else (Raise bad_alloc, st).

(** [create_mmap_file]: a fresh file of [init_map_size] bytes. *)
Definition create_mmap_file (nodes : NodeStoreT) : OSMStore :=
  mkOSMStore
    (mkSegment nodes ∅ ∅ (mkGenerated [] [] []) (mkGenerated [] [] []))
    init_map_size init_map_size.

(** [managed_mapped_file::grow(osm_store_filename, map_size)] followed by
    [map_size = map_size * 2] on a [size_t]. The source does not look at what
    [grow] returns; the file system is taken to grant the extension. *)
Definition grow (st : OSMStore) : OSMStore :=
  mkOSMStore (mmap_file st)
             (file_size st + map_size st)
             ((map_size st * 2) mod size_t_modulus).

(** [open_mmap_file] and [reopen]: [find_or_construct] finds every named
    object where it was, so the members are bound to the same content. *)
Definition reopen (st : OSMStore) : OSMStore := st.

Fixpoint perform_mmap_operation {A} (fuel : nat)
    (func : OSMStore → result A * OSMStore) (st : OSMStore)
    : result A * OSMStore :=
  match fuel with
  | O => (OutOfFuel, st)
  | S fuel' =>
    match func st with
    | (Raise bad_alloc, st') => perform_mmap_operation fuel' func (reopen (grow st'))
    | r => r
    end
  end.

(** *** Nodes *)

Definition impl_nodes_insert_back (i : NodeID) (coord : LatpLon) (st : OSMStore)
    : result unit * OSMStore :=
  match node_store (mmap_file st) with
  | Compact v =>
    match NodeStoreCompact.insert_back i coord v with
    | Val v' => (Val tt, set_segment (set_node_store (Compact v') (mmap_file st)) st)
    | Raise e => (Raise e, st)
    | Undefined => (Undefined, st)
    | OutOfFuel => (OutOfFuel, st)
    end
  | Sparse m =>
    allocating (set_node_store (Sparse (NodeStore.insert_back i coord m))
                               (mmap_file st)) tt st
  end.

Definition impl_nodes_at (st : OSMStore) (i : NodeID) : result LatpLon :=
  match node_store (mmap_file st) with
  | Compact v => NodeStoreCompact.at_ v i
  | Sparse m => NodeStore.at_ m i
  end.

Definition nodes_insert_back (fuel : nat) (i : NodeID) (coord : LatpLon)
    (st : OSMStore) : result unit * OSMStore :=
  perform_mmap_operation fuel (impl_nodes_insert_back i coord) st.

Definition nodes_at (st : OSMStore) (i : NodeID) : result LatpLon :=
  impl_nodes_at st i.

Definition nodes_size (st : OSMStore) : nat :=
  match node_store (mmap_file st) with
  | Compact v => NodeStoreCompact.size v
  | Sparse m => NodeStore.size m
  end.

(** *** Ways and relations *)

Definition ways_at (st : OSMStore) (i : WayID) : result NodeVec :=
  WayStore.at_ (way_store (mmap_file st)) i.

Definition relations_at (st : OSMStore) (i : WayID)
    : result (list Z * list Z) :=
  RelationStore.at_ (relation_store (mmap_file st)) i.

(** The handle is taken of the reference that [ways.insert_back] returns,
    the vector stored under [i]. *)
Definition ways_insert_back (fuel : nat) (i : WayID) (nodeVec : NodeVec)
    (st : OSMStore) : result handle_t * OSMStore :=
  perform_mmap_operation fuel
    (fun st =>
       allocating
         (set_way_store
            (WayStore.insert_back i nodeVec (way_store (mmap_file st))).1
            (mmap_file st))
         (way_handle i) st)
    st.

Definition relations_insert_front (fuel : nat) (i : WayID)
    (outerWayVec innerWayVec : WayVec) (st : OSMStore)
    : result handle_t * OSMStore :=
  perform_mmap_operation fuel
    (fun st =>
       allocating
         (set_relation_store
            (RelationStore.insert_front i outerWayVec innerWayVec
                                        (relation_store (mmap_file st))).1
            (mmap_file st))
         (relation_handle i) st)
    st.

(** [retrieve<WayStore<NodeID>::nodeid_vector_t>(handle)]: reading through a
    handle that does not designate a stored node vector is undefined. *)
Definition retrieve_way (st : OSMStore) (handle : handle_t) : result NodeVec :=
  match handle with
  | way_handle i =>
    match way_store (mmap_file st) !! i with
    | Some way => Val way
    | None => Undefined
    end
  | _ => Undefined
  end.

Definition getMemorySize (st : OSMStore) : N := map_size st.

(** *** Generated geometries *)

(** [store.points_store->emplace_back(x, y)] in the retry loop, then the
    handle of [points_store->back()]. *)
Definition store_point (fuel : nat) (g : which) (input : Point) (st : OSMStore)
    : result handle_t * OSMStore :=
  and_then
    (perform_mmap_operation fuel
       (fun st =>
          let gen := get_generated g (mmap_file st) in
          allocating
            (set_generated g
               (mkGenerated (points_store gen ++ [input])
                            (linestring_store gen) (multi_polygon_store gen))
               (mmap_file st)) tt st)
       st)
    (fun _ st =>
       (Val (point_handle g
               (length (points_store (get_generated g (mmap_file st))) - 1)), st)).

(** [linestring_store->back() = v]. *)
Definition assign_back {A} (v : A) (l : list A) : list A :=
  <[length l - 1 := v]> l.

(** The deque is first resized by one, then the new last element is
    assigned: two allocating steps inside one attempt. *)
Definition store_linestring (fuel : nat) (g : which) (src : Linestring)
    (st : OSMStore) : result handle_t * OSMStore :=
  and_then
    (perform_mmap_operation fuel
       (fun st =>
          let gen := get_generated g (mmap_file st) in
          and_then
            (allocating
               (set_generated g
                  (mkGenerated (points_store gen) (linestring_store gen ++ [[]])
                               (multi_polygon_store gen))
                  (mmap_file st)) tt st)
            (fun _ st =>
               let gen := get_generated g (mmap_file st) in
               allocating
                 (set_generated g
                    (mkGenerated (points_store gen)
                                 (assign_back src (linestring_store gen))
                                 (multi_polygon_store gen))
                    (mmap_file st)) tt st))
       st)
    (fun _ st =>
       (Val (linestring_handle g
               (length (linestring_store (get_generated g (mmap_file st))) - 1)),
        st)).

(** Every polygon of [src] is copied ring by ring into a multipolygon that
    is then pushed onto the deque. *)
Definition store_multi_polygon (fuel : nat) (g : which) (src : MultiPolygon)
    (st : OSMStore) : result handle_t * OSMStore :=
  and_then
    (perform_mmap_operation fuel
       (fun st =>
          let gen := get_generated g (mmap_file st) in
          let result :=
            map (fun polygon => mkPolygon (outer polygon) (inners polygon)) src in
          allocating
            (set_generated g
               (mkGenerated (points_store gen) (linestring_store gen)
                            (multi_polygon_store gen ++ [result]))
               (mmap_file st)) tt st)
       st)
    (fun _ st =>
       (Val (multi_polygon_handle g
               (length (multi_polygon_store (get_generated g (mmap_file st))) - 1)),
        st)).

(** *** Construction and [clear] *)

(** [nodes.reserve(osm_store_nodes); ways.reserve(osm_store_ways)]: only the
    dense node vector changes content; reserving buckets of a hash map does
    not. *)
Definition reserve_stores (osm_store_nodes osm_store_ways : N) (st : OSMStore)
    : result unit * OSMStore :=
  match node_store (mmap_file st) with
  | Compact v =>
    if (max_size <? osm_store_nodes)%N then (Raise bad_alloc, st)
    else allocating
           (set_node_store (Compact (NodeStoreCompact.reserve osm_store_nodes v))
                           (mmap_file st)) tt st
  | Sparse m => (Val tt, st)
  end.

(** [OSMStoreImpl<NodeStoreT>(filename, osm_store_nodes, osm_store_ways)];
    [nodes] is the empty node store of the chosen variant. *)
Definition OSMStoreImpl (fuel : nat) (nodes : NodeStoreT)
    (osm_store_nodes osm_store_ways : N) : result unit * OSMStore :=
  perform_mmap_operation fuel (reserve_stores osm_store_nodes osm_store_ways)
                         (reopen (create_mmap_file nodes)).

Definition clear_nodes (n : NodeStoreT) : NodeStoreT :=
  match n with
  | Compact v => Compact (NodeStoreCompact.clear v)
  | Sparse m => Sparse (NodeStore.clear m)
  end.

(** [OSMStoreImpl::clear]: [nodes.clear(); ways.clear(); relations.clear();] *)
Definition clear (st : OSMStore) : OSMStore :=
  let seg := mmap_file st in
  set_segment
    (set_relation_store (RelationStore.clear (relation_store seg))
       (set_way_store (WayStore.clear (way_store seg))
          (set_node_store (clear_nodes (node_store seg)) seg)))
    st.

Definition ways_size (st : OSMStore) : nat :=
  WayStore.size (way_store (mmap_file st)).

Definition relations_size (st : OSMStore) : nat :=
  RelationStore.size (relation_store (mmap_file st)).

(** *** Sequences of mutations *)

(** The mutating operations of the façade, as a caller issues them. *)
Inductive mutation :=
| insert_node (i : N) (coord : LatpLon)
| insert_way (i : Z) (nodeVec : list N)
| insert_relation (i : Z) (outerWayVec innerWayVec : list Z)
| do_store_point (g : which) (input : float * float)
| do_store_linestring (g : which) (src : list (float * float))
| do_store_multi_polygon (g : which) (src : list Polygon).

Definition discard {A} (r : result A * OSMStore) : result unit * OSMStore :=
  and_then r (fun _ st => (Val tt, st)).

Definition apply_mutation (fuel : nat) (op : mutation) (st : OSMStore)
    : result unit * OSMStore :=
  match op with
  | insert_node i coord => nodes_insert_back fuel i coord st
  | insert_way i nodeVec => discard (ways_insert_back fuel i nodeVec st)
  | insert_relation i o n => discard (relations_insert_front fuel i o n st)
  | do_store_point g input => discard (store_point fuel g input st)
  | do_store_linestring g src => discard (store_linestring fuel g src st)
  | do_store_multi_polygon g src => discard (store_multi_polygon fuel g src st)
  end.

(** The store after a sequence of mutations; a mutation that throws leaves
    the store as it was when the exception left it, and the caller goes on.
    [None] when a retry loop of the model ran out of fuel. *)
Fixpoint run_mutations (fuel : nat) (ops : list mutation) (st : OSMStore)
    : option OSMStore :=
  match ops with
  | [] => Some st
  | op :: ops' =>
    match apply_mutation fuel op st with
    | (OutOfFuel, _) => None
    | (_, st') => run_mutations fuel ops' st'
    end
  end.

(** ** Geometry assembly *)

(** [fillPoints(points, begin, end)] *)
Fixpoint fillPoints (st : OSMStore) (points : list Point) (nodes : NodeVec)
    : result (list Point) :=
  match nodes with
  | [] => Val points
  | it :: nodes' =>
    ll ← nodes_at st it;
    fillPoints st (points ++ [make_Point ll]) nodes'
  end.

(** Way -> Linestring *)
Definition nodeListLinestring (st : OSMStore) (handle : handle_t)
    : result Linestring :=
  way ← retrieve_way st handle;
  fillPoints st [] way.

Definition wayIsClosed (st : OSMStore) (handle : handle_t) : result bool :=
  way ← retrieve_way st handle;
  match way with
  | [] => Val true
  | _ => a ← front way; b ← back way; mret (N.eqb a b)
  end.

(** *** Ring stitching *)

(** [done[*it]] on a [std::map<WayID,bool>]: reading a key that is not there
    inserts it with [false]. *)
Definition done_at (it : WayID) (done : gmap Z bool) : bool * gmap Z bool :=
  match done !! it with
  | Some b => (b, done)
  | None => (false, <[it := false]> done)
  end.

(** The loop over [results] that looks for a chain to join [nodes] to:
    [Some] of the updated chains after the first match, [None] when no
    chain matches. *)
Fixpoint join_results (nodes : NodeVec) (jFirst jLast : NodeID)
    (results : list NodeVec) : result (option (list NodeVec)) :=
  match results with
  | [] => Val None
  | ot :: rest =>
    oFirst ← front ot;
    oLast ← back ot;
    if N.eqb jFirst jLast then
      r ← join_results nodes jFirst jLast rest; mret (fmap (M := option) (cons ot) r)
    else if N.eqb oLast jFirst then
      Val (Some ((ot ++ nodes) :: rest))
    else if N.eqb oLast jLast then
      Val (Some ((ot ++ rev nodes) :: rest))
    else if N.eqb jLast oFirst then
      Val (Some ((nodes ++ ot) :: rest))
    else if N.eqb jFirst oFirst then
      Val (Some ((rev nodes ++ ot) :: rest))
    else
      r ← join_results nodes jFirst jLast rest; mret (fmap (M := option) (cons ot) r)
  end.

(** One iteration of the first [for] loop of a pass. [added] is an [int]
    that goes up by at most one per way of the input, which keeps it far
    from overflow. *)
Definition merge_way (ways : gmap Z (list N))
    (acc : list NodeVec * gmap Z bool * Z) (it : WayID)
    : result (list NodeVec * gmap Z bool * Z) :=
  let '(results, done, added) := acc in
  let '(skip, done) := done_at it done in
  if skip then Val (results, done, added)
  else
    way ← WayStore.at_ ways it;
    closed ← isClosed (way : list N);
    if (closed : bool) then
      Val (results ++ [way], <[it := true]> done, (added + 1)%Z)
    else
      nodes ← WayStore.at_ ways it;
      jFirst ← front nodes;
      jLast ← back nodes;
      joined ← join_results nodes jFirst jLast results;
      match joined with
      | Some results' => Val (results', <[it := true]> done, (added + 1)%Z)
      | None => Val (results, done, added)
      end.

Fixpoint merge_ways (ways : gmap Z (list N)) (its : WayVec)
    (acc : list NodeVec * gmap Z bool * Z)
    : result (list NodeVec * gmap Z bool * Z) :=
  match its with
  | [] => Val acc
  | it :: its' => acc' ← merge_way ways acc it; merge_ways ways its' acc'
  end.

(** The second [for] loop of a pass, entered with [added == 0]: the first
    way that is not done becomes a chain of its own. *)
Fixpoint seed_way (ways : gmap Z (list N)) (its : WayVec)
    (results : list NodeVec) (done : gmap Z bool)
    : result (list NodeVec * gmap Z bool * Z) :=
  match its with
  | [] => Val (results, done, 0%Z)
  | it :: its' =>
    let '(skip, done) := done_at it done in
    if skip then seed_way ways its' results done
    else
      way ← WayStore.at_ ways it;
      Val (results ++ [way], <[it := true]> done, 1%Z)
  end.

(** One pass of the [do ... while (added>0)] loop. *)
Definition merge_pass (ways : gmap Z (list N)) (its : WayVec)
    (results : list NodeVec) (done : gmap Z bool)
    : result (list NodeVec * gmap Z bool * Z) :=
  '(results, done, added) ← merge_ways ways its (results, done, 0%Z);
  if (added =? 0)%Z then seed_way ways its results done
  else Val (results, done, added).

Fixpoint mergeMultiPolygonWays (fuel : nat) (ways : gmap Z (list N))
    (its : WayVec) (results : list NodeVec) (done : gmap Z bool)
    : result (list NodeVec * gmap Z bool) :=
  match fuel with
  | O => OutOfFuel
  | S fuel' =>
    '(results, done, added) ← merge_pass ways its results done;
    if (0 <? added)%Z then mergeMultiPolygonWays fuel' ways its results done
    else Val (results, done)
  end.

(** Whether a way is marked in [done], and how many entries of the input
    sequence are not: the quantity that goes down with every productive pass. *)
Definition is_done (done : gmap Z bool) (it : WayID) : bool :=
  default false (done !! it).

Definition undone (done : gmap Z bool) (its : WayVec) : nat :=
  length (filter (fun it => is_done done it = false) its).

Context `{BG : BoostGeometry}.

(** Way -> Polygon *)
Definition nodeListPolygon (st : OSMStore) (handle : handle_t) : result Polygon :=
  way ← retrieve_way st handle;
  pts ← fillPoints st [] way;
  mret (correct_polygon (mkPolygon pts [])).

(** The chains of a relation before they are turned into points: the
    outer chains and the inner chains, stitched with a shared [done] map. *)
Definition wayListChains (fuel : nat) (st : OSMStore) (outerWays innerWays : WayVec)
    : result (list NodeVec * list NodeVec) :=
  '(outers, done) ← mergeMultiPolygonWays fuel (way_store (mmap_file st))
                                           outerWays [] ∅;
  '(inners, done) ← mergeMultiPolygonWays fuel (way_store (mmap_file st))
                                           innerWays [] done;
  mret (outers, inners).

(** Relation -> MultiPolygon *)
Definition wayListMultiPolygon (fuel : nat) (st : OSMStore)
    (outerWays innerWays : WayVec) : result MultiPolygon :=
  match outerWays with
  | [] => Val []
  | _ =>
    '(outers, inners) ← wayListChains fuel st outerWays innerWays;
    filledInners ← mapM (fillPoints st []) inners;
    mp ← mapM (fun ot =>
                 pts ← fillPoints st [] ot;
                 mret (mkPolygon pts (filter (fun it => within it pts) filledInners)))
              outers;
    mret (correct mp)
  end.

Definition wayListLinestring (mp : MultiPolygon) : Linestring :=
  match mp with
  | [] => []
  | p :: _ => outer p
  end.

End Store.

(** ** Concrete stores used in the examples *)

(** A stand-in segment manager: sixteen bytes for a node, sixty-four for a
    way, a relation or a generated geometry. *)
Definition example_footprint (seg : Segment) : N :=
  (16 * N.of_nat (match node_store seg with
                  | Compact v => length v
                  | Sparse m => size m
                  end)
   + 64 * N.of_nat (size (way_store seg))
   + 64 * N.of_nat (size (relation_store seg))
   + 64 * N.of_nat (length (points_store (osm_generated seg))
                    + length (linestring_store (osm_generated seg))
                    + length (multi_polygon_store (osm_generated seg))
                    + length (points_store (shp_generated seg))
                    + length (linestring_store (shp_generated seg))
                    + length (multi_polygon_store (shp_generated seg))))%N.

Definition example_manager : SegmentManager :=
  {| footprint := example_footprint; max_size := 2 ^ 60 |}.

(** A stand-in geometry library that never finds a ring within another
    and leaves the winding as it is. *)
Definition example_geometry : BoostGeometry :=
  {| within := fun _ _ => false;
     correct_polygon := fun p => p;
     correct := fun mp => mp |}.

Definition no_geometries : generated := mkGenerated [] [] [].

(** Way 1 is the closed ring 1,2,3,1; way 2 is the open way 1,5. *)
Definition closed_and_open_ways : gmap Z (list N) :=
  <[1%Z := [1; 2; 3; 1]%N]> (<[2%Z := [1; 5]%N]> ∅).

(** Ways 200 = 1,2,3 and 201 = 3,4,1. *)
(** A triangle cut into three ways, each starting where the one before
    ends. *)
Definition triangle_ways : gmap Z (list N) :=
  <[300%Z := [1; 2]%N]> (<[301%Z := [2; 3]%N]> (<[302%Z := [3; 1]%N]> ∅)).

Definition two_outer_ways : gmap Z (list N) :=
  <[200%Z := [1; 2; 3]%N]> (<[201%Z := [3; 4; 1]%N]> ∅).

(** Nodes 1..4 at the corners (0,0), (10,0), (10,10), (0,10) of a square, in
    a dense node store reserved for five nodes. *)
Definition square_nodes : list LatpLon :=
  [LatpLon_zero; mkLatpLon 0 0; mkLatpLon 0 100000000;
   mkLatpLon 100000000 100000000; mkLatpLon 100000000 0].

Definition square_store (ways : gmap Z (list N)) : OSMStore :=
  mkOSMStore (mkSegment (Compact square_nodes) ways ∅ no_geometries no_geometries)
             init_map_size init_map_size.

(** A hash-map node store with the given nodes and nothing else. *)
Definition sparse_store (nodes : gmap N LatpLon) : OSMStore :=
  mkOSMStore (mkSegment (Sparse nodes) ∅ ∅ no_geometries no_geometries)
             init_map_size init_map_size.

(** An empty store on a file of sixteen bytes, too small for a single way
    under [example_manager]. *)
Definition tiny_store : OSMStore :=
  mkOSMStore (mkSegment (Sparse ∅) ∅ ∅ no_geometries no_geometries) 16 16.

(** A stand-in segment manager that charges sixteen bytes for every point of
    a linestring of the osm slot, and nothing else. *)
Definition point_counting_manager : SegmentManager :=
  {| footprint := fun seg =>
       (16 * N.of_nat (length (concat (linestring_store (osm_generated seg)))))%N;
     max_size := 2 ^ 60 |}.

(** ** Reading through handles, and auxiliary notions *)

Global Instance which_eq_dec : EqDecision which.
Proof. solve_decision. Defined.

(** [retrieve<T>(handle)] at the other types the store hands out handles
    for; as for [retrieve_way], a handle that does not designate an object of
    the type asked for is undefined. *)
Definition retrieve_relation (st : OSMStore) (handle : handle_t)
    : result (list Z * list Z) :=
  match handle with
  | relation_handle i =>
    match relation_store (mmap_file st) !! i with
    | Some entry => Val entry
    | None => Undefined
    end
  | _ => Undefined
  end.

Definition retrieve_point (st : OSMStore) (handle : handle_t) : result Point :=
  match handle with
  | point_handle g k =>
    match points_store (get_generated g (mmap_file st)) !! k with
    | Some p => Val p
    | None => Undefined
    end
  | _ => Undefined
  end.

Definition retrieve_linestring (st : OSMStore) (handle : handle_t)
    : result Linestring :=
  match handle with
  | linestring_handle g k =>
    match linestring_store (get_generated g (mmap_file st)) !! k with
    | Some ls => Val ls
    | None => Undefined
    end
  | _ => Undefined
  end.

Definition retrieve_multi_polygon (st : OSMStore) (handle : handle_t)
    : result MultiPolygon :=
  match handle with
  | multi_polygon_handle g k =>
    match multi_polygon_store (get_generated g (mmap_file st)) !! k with
    | Some mp => Val mp
    | None => Undefined
    end
  | _ => Undefined
  end.

(** The nodes of the ways [its], one way after the other. *)
Definition nodes_of_ways (ways : gmap Z (list N)) (its : list Z) : list N :=
  concat (map (fun it => default [] (ways !! it)) its).

(** The store after its file was grown [k] times. *)
Definition grow_times (k : nat) (st : OSMStore) : OSMStore :=
  Nat.iter k (fun s => reopen (grow s)) st.

(** The two ends of a chain, when it has any. *)
Definition touches (jFirst jLast : N) (ot : list N) : Prop :=
  last ot = Some jFirst ∨ last ot = Some jLast ∨
  head ot = Some jLast ∨ head ot = Some jFirst.

(** What a stitching run that started from the chains [r0] and the map [d0]
    has consumed when it stands at the chains [r] and the map [d]: the ways
    [l], each once, all of them ways of the input that were not done at the
    start; the nodes of the chains are those of [r0] and of the ways [l]. *)
Definition consumed (ways : gmap Z (list N)) (its : list Z)
    (r0 : list (list N)) (d0 : gmap Z bool)
    (l : list Z) (r : list (list N)) (d : gmap Z bool) : Prop :=
  NoDup l ∧
  (∀ j, j ∈ l → j ∈ its ∧ is_done d0 j = false ∧ is_Some (ways !! j)) ∧
  (∀ j, is_done d j = true ↔ is_done d0 j = true ∨ j ∈ l) ∧
  concat r ≡ₚ concat r0 ++ nodes_of_ways ways l.

(** The store [st'] holds whatever [st] holds behind a handle: the ways and
    the relations of [st] under the same ids, and the generated geometries
    of [st] at the same places of the deques. *)
Definition extends (st st' : OSMStore) : Prop :=
  way_store (mmap_file st) ⊆ way_store (mmap_file st') ∧
  relation_store (mmap_file st) ⊆ relation_store (mmap_file st') ∧
  ∀ g,
    points_store (get_generated g (mmap_file st))
      `prefix_of` points_store (get_generated g (mmap_file st')) ∧
    linestring_store (get_generated g (mmap_file st))
      `prefix_of` linestring_store (get_generated g (mmap_file st')) ∧
    multi_polygon_store (get_generated g (mmap_file st))
      `prefix_of` multi_polygon_store (get_generated g (mmap_file st')).

(** Every attempt leaves a store that extends the one it started from. *)
Definition step_extends {A} (func : OSMStore → result A * OSMStore) : Prop :=
  ∀ s r s', func s = (r, s') → extends s s'.

(** An attempt that leaves the two sizes of the store as they were. *)
Definition keeps_sizes {A} (func : OSMStore → result A * OSMStore) : Prop :=
  ∀ s r s', func s = (r, s') →
    file_size s' = file_size s ∧ map_size s' = map_size s.

(** An open way: it has nodes and its two ends differ. *)
Definition open_way (way : list N) : Prop :=
  ∃ a b, head way = Some a ∧ last way = Some b ∧ a ≠ b.

(** Open ways that follow one another: the first starts at the node [from],
    and each of the others starts where the one before it ends. *)
Fixpoint chained (from : N) (ws : list (list N)) : Prop :=
  match ws with
  | [] => True
  | w :: ws' =>
    open_way w ∧ head w = Some from ∧
    ∃ b, last w = Some b ∧ chained b ws'
  end.

(** ** Predicates used in the statements *)

(** Every way marked in [d] is marked in [d']. *)
Definition done_le (d d' : gmap Z bool) : Prop :=
  ∀ it, is_done d it = true → is_done d' it = true.

(** No chain is empty. *)
Abbreviation nonempty_chains := (Forall (fun c : list N => c ≠ [])) (only parsing).

(** The states a store goes through while its file is grown: same content,
    larger file. *)
Inductive grown : OSMStore → OSMStore → Prop :=
| grown_refl st : grown st st
| grown_step st st' : grown (reopen (grow st)) st' → grown st st'.

(** An attempt is atomic when a [bad_alloc] leaves the store untouched. *)
Definition atomic {A} (func : OSMStore → result A * OSMStore) : Prop :=
  ∀ st st', func st = (Raise bad_alloc, st') → st' = st.

(** An attempt that leaves the node store as it found it, whatever its
    outcome. *)
Definition keeps_nodes {A} (func : OSMStore → result A * OSMStore) : Prop :=
  ∀ st r st', func st = (r, st') →
    node_store (mmap_file st') = node_store (mmap_file st).

(** The node [i] reads as [c], in the dense and in the hash-map store. *)
Definition holds_dense (i : N) (c : LatpLon) (st : OSMStore) : Prop :=
  ∃ v, node_store (mmap_file st) = Compact v ∧ v !! N.to_nat i = Some c.

Definition holds_sparse (i : N) (c : LatpLon) (st : OSMStore) : Prop :=
  ∃ m, node_store (mmap_file st) = Sparse m ∧ m !! i = Some c.

(** * Properties *)

(** ** The [done] map *)

Lemma done_le_refl d : done_le d d.
Proof. by intros it. Qed.

Lemma done_le_trans d1 d2 d3 : done_le d1 d2 → done_le d2 d3 → done_le d1 d3.
Proof. intros H12 H23 it Hit. by apply H23, H12. Qed.

Lemma is_done_insert_true (d : gmap Z bool) it : is_done (<[it := true]> d) it = true.
Proof. unfold is_done. by rewrite lookup_insert_eq. Qed.

Lemma is_done_insert_ne (d : gmap Z bool) it j b :
  it ≠ j → is_done (<[it := b]> d) j = is_done d j.
Proof. intros Hne. unfold is_done. by rewrite lookup_insert_ne. Qed.

Lemma done_le_insert_true (d : gmap Z bool) it : done_le d (<[it := true]> d).
Proof.
  intros j Hj. destruct (decide (it = j)) as [->|Hne].
  - apply is_done_insert_true.
  - by rewrite is_done_insert_ne.
Qed.

Lemma done_at_spec it (d d1 : gmap Z bool) skip :
  done_at it d = (skip, d1) →
  skip = is_done d it ∧ ∀ j, is_done d1 j = is_done d j.
Proof.
  unfold done_at, is_done. destruct (d !! it) as [b|] eqn:E; intros [= <- <-].
  - done.
  - split; [done|]. intros j.
    destruct (decide (it = j)) as [<-|Hne].
    + by rewrite lookup_insert_eq, E.
    + by rewrite lookup_insert_ne.
Qed.

Lemma undone_le_length d its : undone d its ≤ length its.
Proof. unfold undone. apply length_filter. Qed.

Lemma undone_mono d d' its : done_le d d' → undone d' its ≤ undone d its.
Proof.
  intros Hle. unfold undone. induction its as [|it its IH]; [simpl; lia|].
  rewrite !filter_cons.
  destruct (decide (is_done d' it = false)) as [Hf'|Ht'];
    destruct (decide (is_done d it = false)) as [Hf|Ht]; simpl; try lia.
  apply not_false_is_true, Hle in Ht. congruence.
Qed.

Lemma undone_decrease d d' its it :
  done_le d d' → it ∈ its → is_done d it = false → is_done d' it = true →
  undone d' its < undone d its.
Proof.
  intros Hle Hin Hf Ht. induction its as [|j its IH]; [by apply elem_of_nil in Hin|].
  pose proof (undone_mono d d' its Hle) as Hmono.
  unfold undone in *. rewrite !filter_cons.
  apply elem_of_cons in Hin as [<-|Hin].
  - destruct (decide (is_done d' it = false)); [congruence|].
    destruct (decide (is_done d it = false)); [|congruence].
    simpl. lia.
  - specialize (IH Hin).
    destruct (decide (is_done d' j = false)) as [Hf'|Ht'];
      destruct (decide (is_done d j = false)) as [Hfj|Htj]; simpl; try lia.
    apply not_false_is_true, Hle in Htj. congruence.
Qed.

(** ** Outcomes of sequenced steps *)

Lemma bind_Val {A B} (f : A → result B) (r : result A) (b : B) :
  r ≫= f = Val b → ∃ a, r = Val a ∧ f a = Val b.
Proof. destruct r as [a| | |]; simpl; try discriminate. eauto. Qed.

Lemma front_nonempty {A} (v : list A) : v ≠ [] → ∃ a, front v = Val a.
Proof. destruct v as [|a v]; [done|]. intros _. by exists a. Qed.

Lemma back_nonempty {A} (v : list A) : v ≠ [] → ∃ a, back v = Val a.
Proof.
  intros Hv. unfold back. apply last_is_Some in Hv as [a Ha].
  rewrite Ha. by exists a.
Qed.

(** Splits the goal on the outcome of the first step of a sequence. *)
Ltac case_step :=
  match goal with
  | |- context [mbind _ ?r] =>
    let E := fresh "E" in destruct r eqn:E; simpl; try discriminate
  end.

(** ** One pass of the stitching loop *)

Lemma mark_done (d d1 : gmap Z bool) it :
  (∀ j, is_done d1 j = is_done d j) → done_le d (<[it := true]> d1).
Proof.
  intros Hsame j Hj. apply done_le_insert_true. by rewrite Hsame.
Qed.

Lemma join_results_nonempty nodes jFirst jLast results r :
  nodes ≠ [] → nonempty_chains results →
  join_results nodes jFirst jLast results = Val (Some r) →
  nonempty_chains r.
Proof.
  intros Hnodes Hres. revert r.
  induction Hres as [|ot rest Hot Hrest IH]; intros r; simpl; [done|].
  do 2 case_step.
  assert (∀ r0, fmap (M := option) (cons ot) r0 = Some r →
                join_results nodes jFirst jLast rest = Val r0 →
                nonempty_chains r) as Hcont.
  { intros [r0|]; simpl; [|done]. intros [= <-] Hr0.
    constructor; [done|]. by apply IH. }
  assert (∀ l : list N, nodes ++ l ≠ []) as Hl by (by destruct nodes).
  assert (∀ l : list N, l ++ nodes ≠ []) as Hr.
  { intros l Hnil. by apply app_eq_nil in Hnil as [_ ?]. }
  assert (rev nodes ≠ []) as Hrev.
  { intros Hnil. apply (f_equal (@rev N)) in Hnil. by rewrite rev_involutive in Hnil. }
  repeat case_match; try (intros [= <-]; constructor; try done);
    try (by intros Hnil; apply app_eq_nil in Hnil as [? ?]);
    try (case_step; intros [= Hf]; by eapply Hcont).
Qed.

Lemma join_results_total nodes jFirst jLast results :
  nonempty_chains results →
  ∃ r, join_results nodes jFirst jLast results = Val r.
Proof.
  induction 1 as [|ot rest Hot Hrest [r IH]]; simpl; [by eexists|].
  destruct (front_nonempty ot Hot) as [oFirst ->].
  destruct (back_nonempty ot Hot) as [oLast ->]. simpl.
  rewrite IH. simpl. repeat case_match; by eexists.
Qed.

(** What one step of the first loop does to [done] and [added]: either
    nothing that can be observed, or the way at hand goes from not done to
    done and [added] goes up by one. *)
Lemma merge_way_progress ways results d a it results' d' a' :
  merge_way ways (results, d, a) it = Val (results', d', a') →
  done_le d d' ∧
  ((a' = a ∧ ∀ j, is_done d' j = is_done d j) ∨
   (a' = (a + 1)%Z ∧ is_done d it = false ∧ is_done d' it = true)).
Proof.
  unfold merge_way. destruct (done_at it d) as [skip d1] eqn:Hd.
  apply done_at_spec in Hd as [-> Hsame].
  destruct (is_done d it) eqn:Hdone.
  { intros [= <- <- <-]. split; [|by left].
    intros j Hj. by rewrite Hsame. }
  do 2 case_step. destruct a1.
  { intros [= <- <- <-]. split; [by apply mark_done|].
    right. by rewrite is_done_insert_true. }
  repeat case_step. case_match; intros [= <- <- <-].
  - split; [by apply mark_done|]. right. by rewrite is_done_insert_true.
  - split; [|by left]. intros j Hj. by rewrite Hsame.
Qed.

Lemma merge_way_total ways results d a it way :
  ways !! it = Some way → way ≠ [] → nonempty_chains results →
  ∃ results' d' a',
    merge_way ways (results, d, a) it = Val (results', d', a') ∧
    nonempty_chains results'.
Proof.
  intros Hway Hne Hres. unfold merge_way.
  destruct (done_at it d) as [skip d1]. destruct skip; [by eauto 6|].
  unfold WayStore.at_, isClosed. rewrite Hway. simpl.
  destruct (front_nonempty way Hne) as [jFirst HjF].
  destruct (back_nonempty way Hne) as [jLast HjL].
  rewrite HjF, HjL. simpl. destruct (jFirst =? jLast)%N.
  { do 3 eexists. split; [done|]. apply Forall_app. split; [done|].
    by constructor. }
  destruct (join_results_total way jFirst jLast results Hres) as [r Hr].
  rewrite Hr. simpl. destruct r as [r|]; do 3 eexists; (split; [done|]); [|done].
  by eapply join_results_nonempty.
Qed.

Lemma merge_ways_progress ways its : ∀ results d a results' d' a',
  merge_ways ways its (results, d, a) = Val (results', d', a') →
  done_le d d' ∧ (a ≤ a')%Z ∧
  (a' = a → ∀ j, is_done d' j = is_done d j) ∧
  ((a < a')%Z → ∃ it, it ∈ its ∧ is_done d it = false ∧ is_done d' it = true).
Proof.
  induction its as [|it its IH]; intros results d a results' d' a'; simpl.
  { intros [= <- <- <-]. split; [apply done_le_refl|].
    split; [lia|]. split; [done|lia]. }
  intros Hrun. apply bind_Val in Hrun as ([[r1 d1] a1] & Hstep & Hrest).
  apply merge_way_progress in Hstep as [Hle1 Hstep].
  apply IH in Hrest as (Hle2 & Ha & Hsame & Hstrict).
  split; [by eapply done_le_trans|].
  destruct Hstep as [[-> Hsame1]|(-> & Hf & Ht)].
  - split; [done|]. split.
    + intros Heq j. rewrite Hsame by done. apply Hsame1.
    + intros Hlt. destruct (Hstrict Hlt) as (j & Hj & Hjf & Hjt).
      exists j. split; [by apply elem_of_cons; right|].
      split; [|done]. by rewrite <- Hsame1.
  - split; [lia|]. split; [lia|]. intros _. exists it.
    split; [by apply elem_of_cons; left|]. split; [done|]. by apply Hle2.
Qed.

Lemma merge_ways_total ways its : ∀ results d a,
  (∀ it, it ∈ its → ∃ way, ways !! it = Some way ∧ way ≠ []) →
  nonempty_chains results →
  ∃ results' d' a',
    merge_ways ways its (results, d, a) = Val (results', d', a') ∧
    nonempty_chains results'.
Proof.
  induction its as [|it its IH]; intros results d a Hways Hres;
    cbn [merge_ways].
  { by eauto 6. }
  destruct (Hways it) as (way & Hway & Hne); [by apply elem_of_cons; left|].
  destruct (merge_way_total ways results d a it way Hway Hne Hres)
    as (r1 & d1 & a1 & -> & Hres1). simpl.
  apply IH; [|done]. intros j Hj. apply Hways. by apply elem_of_cons; right.
Qed.

Lemma seed_way_progress ways its : ∀ results d results' d' a',
  seed_way ways its results d = Val (results', d', a') →
  done_le d d' ∧
  ((a' = 0%Z ∧ ∀ it, it ∈ its → is_done d it = true) ∨
   (a' = 1%Z ∧ ∃ it, it ∈ its ∧ is_done d it = false ∧ is_done d' it = true)).
Proof.
  induction its as [|it its IH]; intros results d results' d' a'; simpl.
  { intros [= <- <- <-]. split; [apply done_le_refl|]. left.
    split; [done|]. intros it Hit. by apply elem_of_nil in Hit. }
  destruct (done_at it d) as [skip d1] eqn:Hd.
  apply done_at_spec in Hd as [-> Hsame].
  destruct (is_done d it) eqn:Hdone.
  - intros Hrun. apply IH in Hrun as [Hle Hcases]. split.
    { intros j Hj. apply Hle. by rewrite Hsame. }
    destruct Hcases as [[-> Hall]|(-> & j & Hj & Hjf & Hjt)].
    + left. split; [done|]. intros j Hj.
      apply elem_of_cons in Hj as [->|Hj]; [done|]. rewrite <- Hsame. by apply Hall.
    + right. split; [done|]. exists j. split; [by apply elem_of_cons; right|].
      split; [|done]. by rewrite <- Hsame.
  - case_step. intros [= <- <- <-]. split; [by apply mark_done|].
    right. split; [done|]. exists it. split; [by apply elem_of_cons; left|].
    split; [done|]. apply is_done_insert_true.
Qed.

Lemma seed_way_total ways its : ∀ results d,
  (∀ it, it ∈ its → ∃ way, ways !! it = Some way ∧ way ≠ []) →
  nonempty_chains results →
  ∃ results' d' a',
    seed_way ways its results d = Val (results', d', a') ∧
    nonempty_chains results'.
Proof.
  induction its as [|it its IH]; intros results d Hways Hres; simpl.
  { by eauto 6. }
  destruct (done_at it d) as [skip d1]. destruct skip.
  - apply IH; [|done]. intros j Hj. apply Hways. by apply elem_of_cons; right.
  - destruct (Hways it) as (way & Hway & Hne); [by apply elem_of_cons; left|].
    unfold WayStore.at_. rewrite Hway. simpl. do 3 eexists. split; [done|].
    apply Forall_app. split; [done|]. by constructor.
Qed.

(** A pass either reports [added = 0], and then every way of the input is
    done, or reports [added > 0] and has strictly fewer ways left. *)
Lemma merge_pass_progress ways its results d results' d' a' :
  merge_pass ways its results d = Val (results', d', a') →
  done_le d d' ∧ (0 ≤ a')%Z ∧
  (a' = 0%Z → ∀ it, it ∈ its → is_done d' it = true) ∧
  ((0 < a')%Z → undone d' its < undone d its).
Proof.
  unfold merge_pass. intros Hrun.
  apply bind_Val in Hrun as ([[r1 d1] a1] & Hloop & Hseed).
  apply merge_ways_progress in Hloop as (Hle1 & Ha1 & Hsame & Hstrict).
  destruct (a1 =? 0)%Z eqn:Hz.
  - apply Z.eqb_eq in Hz as ->.
    apply seed_way_progress in Hseed as [Hle2 Hcases].
    split; [by eapply done_le_trans|].
    destruct Hcases as [[-> Hall]|(-> & j & Hj & Hjf & Hjt)].
    + split; [lia|]. split; [|lia]. intros _ it Hit. by apply Hle2, Hall.
    + split; [lia|]. split; [lia|]. intros _.
      apply (undone_decrease d d' its j); [by eapply done_le_trans|done| |done].
      by rewrite <- Hsame.
  - injection Hseed as <- <- <-. apply Z.eqb_neq in Hz.
    split; [done|]. split; [lia|]. split; [lia|]. intros _.
    destruct Hstrict as (j & Hj & Hjf & Hjt); [lia|].
    by apply (undone_decrease d d1 its j).
Qed.

Lemma merge_pass_total ways its results d :
  (∀ it, it ∈ its → ∃ way, ways !! it = Some way ∧ way ≠ []) →
  nonempty_chains results →
  ∃ results' d' a',
    merge_pass ways its results d = Val (results', d', a') ∧
    nonempty_chains results'.
Proof.
  intros Hways Hres. unfold merge_pass.
  destruct (merge_ways_total ways its results d 0%Z Hways Hres)
    as (r1 & d1 & a1 & -> & Hres1). simpl.
  destruct (a1 =? 0)%Z; [by apply seed_way_total|by eauto 6].
Qed.

(** ** The stitching loop never runs out of passes *)

Lemma bind_has_fuel {A B} (f : A → result B) (r : result A) :
  r ≠ OutOfFuel → (∀ a, f a ≠ OutOfFuel) → r ≫= f ≠ OutOfFuel.
Proof. destruct r; simpl; auto; done. Qed.

Lemma front_has_fuel {A} (v : list A) : front v ≠ OutOfFuel.
Proof. unfold front. by destruct (head v). Qed.

Lemma back_has_fuel {A} (v : list A) : back v ≠ OutOfFuel.
Proof. unfold back. by destruct (last v). Qed.

Lemma ways_at_has_fuel ways it : WayStore.at_ ways it ≠ OutOfFuel.
Proof. unfold WayStore.at_. by destruct (ways !! it). Qed.

Lemma isClosed_has_fuel way : isClosed way ≠ OutOfFuel.
Proof.
  unfold isClosed. apply bind_has_fuel; [apply front_has_fuel|]. intros a.
  apply bind_has_fuel; [apply back_has_fuel|]. done.
Qed.

Lemma join_results_has_fuel nodes jFirst jLast results :
  join_results nodes jFirst jLast results ≠ OutOfFuel.
Proof.
  induction results as [|ot rest IH]; simpl; [done|].
  apply bind_has_fuel; [apply front_has_fuel|]. intros oFirst.
  apply bind_has_fuel; [apply back_has_fuel|]. intros oLast.
  repeat case_match; try done; by apply bind_has_fuel.
Qed.

Lemma merge_way_has_fuel ways acc it : merge_way ways acc it ≠ OutOfFuel.
Proof.
  destruct acc as [[results d] a]. unfold merge_way.
  destruct (done_at it d) as [skip d1]. destruct skip; [done|].
  apply bind_has_fuel; [apply ways_at_has_fuel|]. intros way.
  apply bind_has_fuel; [apply isClosed_has_fuel|]. intros [|]; [done|].
  apply bind_has_fuel; [apply ways_at_has_fuel|]. intros nodes.
  apply bind_has_fuel; [apply front_has_fuel|]. intros jFirst.
  apply bind_has_fuel; [apply back_has_fuel|]. intros jLast.
  apply bind_has_fuel; [apply join_results_has_fuel|]. by intros [r|].
Qed.

Lemma merge_ways_has_fuel ways its : ∀ acc, merge_ways ways its acc ≠ OutOfFuel.
Proof.
  induction its as [|it its IH]; intros acc; simpl; [done|].
  apply bind_has_fuel; [apply merge_way_has_fuel|]. apply IH.
Qed.

Lemma seed_way_has_fuel ways its : ∀ results d,
  seed_way ways its results d ≠ OutOfFuel.
Proof.
  induction its as [|it its IH]; intros results d; simpl; [done|].
  destruct (done_at it d) as [skip d1]. destruct skip; [apply IH|].
  by apply bind_has_fuel; [apply ways_at_has_fuel|].
Qed.

Lemma merge_pass_has_fuel ways its results d :
  merge_pass ways its results d ≠ OutOfFuel.
Proof.
  unfold merge_pass. apply bind_has_fuel; [apply merge_ways_has_fuel|].
  intros [[r1 d1] a1]. destruct (a1 =? 0)%Z; [apply seed_way_has_fuel|done].
Qed.

Lemma merge_loop_has_fuel ways its : ∀ fuel results d,
  undone d its < fuel →
  mergeMultiPolygonWays fuel ways its results d ≠ OutOfFuel.
Proof.
  induction fuel as [|fuel IH]; intros results d Hfuel; [lia|].
  cbn [mergeMultiPolygonWays].
  destruct (merge_pass ways its results d) as [[[r1 d1] a1]| | |] eqn:Hpass;
    simpl; try done.
  - apply merge_pass_progress in Hpass as (_ & _ & _ & Hstrict).
    destruct (0 <? a1)%Z eqn:Hpos; [|done].
    apply Z.ltb_lt in Hpos. apply IH. specialize (Hstrict Hpos). lia.
  - by apply merge_pass_has_fuel in Hpass.
Qed.

Lemma merge_loop_total ways its : ∀ fuel results d,
  undone d its < fuel →
  (∀ it, it ∈ its → ∃ way, ways !! it = Some way ∧ way ≠ []) →
  nonempty_chains results →
  ∃ results' d',
    mergeMultiPolygonWays fuel ways its results d = Val (results', d') ∧
    nonempty_chains results' ∧
    ∀ it, it ∈ its → is_done d' it = true.
Proof.
  induction fuel as [|fuel IH]; intros results d Hfuel Hways Hres; [lia|].
  cbn [mergeMultiPolygonWays].
  destruct (merge_pass_total ways its results d Hways Hres)
    as (r1 & d1 & a1 & Hpass & Hres1).
  rewrite Hpass. simpl.
  apply merge_pass_progress in Hpass as (_ & Hnonneg & Hzero & Hstrict).
  destruct (0 <? a1)%Z eqn:Hpos.
  - apply Z.ltb_lt in Hpos. apply IH; [|done|done].
    specialize (Hstrict Hpos). lia.
  - apply Z.ltb_ge in Hpos. exists r1, d1. split; [done|]. split; [done|].
    apply Hzero. lia.
Qed.

Lemma is_done_true (d : gmap Z bool) it : is_done d it = true → d !! it = Some true.
Proof. unfold is_done. destruct (d !! it) as [[|]|]; simpl; congruence. Qed.

(** ** Stitching reads the way store only at the ways of its input *)

Lemma merge_way_ext (ways ways' : gmap Z (list N)) acc it :
  ways !! it = ways' !! it → merge_way ways acc it = merge_way ways' acc it.
Proof.
  intros Heq. destruct acc as [[results d] a]. unfold merge_way, WayStore.at_.
  by rewrite Heq.
Qed.

Lemma merge_ways_ext (ways ways' : gmap Z (list N)) its : ∀ acc,
  (∀ it, it ∈ its → ways !! it = ways' !! it) →
  merge_ways ways its acc = merge_ways ways' its acc.
Proof.
  induction its as [|it its IH]; intros acc Heq; [done|]. cbn [merge_ways].
  rewrite (merge_way_ext ways ways') by (apply Heq, elem_of_cons; by left).
  destruct (merge_way ways' acc it); simpl; try done.
  apply IH. intros j Hj. apply Heq, elem_of_cons. by right.
Qed.

Lemma seed_way_ext (ways ways' : gmap Z (list N)) its : ∀ results d,
  (∀ it, it ∈ its → ways !! it = ways' !! it) →
  seed_way ways its results d = seed_way ways' its results d.
Proof.
  induction its as [|it its IH]; intros results d Heq; [done|]. simpl.
  destruct (done_at it d) as [skip d1]. destruct skip.
  - apply IH. intros j Hj. apply Heq, elem_of_cons. by right.
  - unfold WayStore.at_. rewrite (Heq it) by (apply elem_of_cons; by left). done.
Qed.

Lemma merge_pass_ext (ways ways' : gmap Z (list N)) its results d :
  (∀ it, it ∈ its → ways !! it = ways' !! it) →
  merge_pass ways its results d = merge_pass ways' its results d.
Proof.
  intros Heq. unfold merge_pass. rewrite (merge_ways_ext ways ways') by done.
  destruct (merge_ways ways' its (results, d, 0%Z)) as [[[r1 d1] a1]| | |];
    simpl; try done.
  destruct (a1 =? 0)%Z; [by apply seed_way_ext|done].
Qed.

Lemma mergeMultiPolygonWays_ext (ways ways' : gmap Z (list N)) its :
  (∀ it, it ∈ its → ways !! it = ways' !! it) →
  ∀ fuel results d,
    mergeMultiPolygonWays fuel ways its results d
    = mergeMultiPolygonWays fuel ways' its results d.
Proof.
  intros Heq. induction fuel as [|fuel IH]; intros results d; [done|].
  cbn [mergeMultiPolygonWays]. rewrite (merge_pass_ext ways ways') by done.
  destruct (merge_pass ways' its results d) as [[[r1 d1] a1]| | |];
    simpl; try done.
  destruct (0 <? a1)%Z; [apply IH|done].
Qed.

(** ** Ring stitching: the claims *)

(** C1 (the code departs from it). A chain that is already closed is meant
    to take no further way, and the guard in the loop over the chains says
    so in its comment; but the guard compares the two ends of the way, which
    differ on this path, so it never fires. With the closed way 1 = 1,2,3,1
    and the open way 2 = 1,5, the chain 1,2,3,1 is closed, and way 2 is
    appended to it all the same: the result is the single chain
    1,2,3,1,1,5. *)
Theorem closed_chain_accepts_way :
  isClosed [1; 2; 3; 1]%N = Val true ∧
  join_results [1; 5]%N 1%N 5%N [[1; 2; 3; 1]%N]
    = Val (Some [[1; 2; 3; 1; 1; 5]%N]) ∧
  mergeMultiPolygonWays 3 closed_and_open_ways [1; 2]%Z [] ∅
    = Val ([[1; 2; 3; 1; 1; 5]%N], <[2%Z := true]> (<[1%Z := true]> ∅)) ∧
  wayListChains 3 (square_store closed_and_open_ways) [1; 2]%Z []
    = Val ([[1; 2; 3; 1; 1; 5]%N], []).
Proof. repeat split; vm_compute; reflexivity. Qed.

(** C2 as stated fails: in join case 1 the first node of the way is not
    skipped, and the ring stitched from 200 = 1,2,3 and 201 = 3,4,1 is not
    1,2,3,4,1. *)
Lemma stitch_append_does_not_skip :
  join_results [3; 4; 1]%N 3%N 1%N [[1; 2; 3]%N] ≠ Val (Some [[1; 2; 3; 4; 1]%N]) ∧
  wayListChains 3 (square_store two_outer_ways) [200; 201]%Z []
    ≠ Val ([[1; 2; 3; 4; 1]%N], []).
Proof. split; vm_compute; discriminate. Qed.

(** C2, amended. In join case 1 (the last node of the chain is the first
    node of the way) the whole way, its first node included, is appended to
    the chain, so the shared node appears twice in a row. In any store that
    holds the ways 200 = 1,2,3 and 201 = 3,4,1 and the nodes 1..4, the
    relation with outer ways 200, 201 and no inner way is assembled into one
    polygon, without inner rings, whose outer ring is made of the points of
    the nodes 1,2,3,3,4,1, in that order, before winding correction. *)
Theorem stitch_append_keeps_shared_node `{BG : BoostGeometry}
    (nodes ot : list N) (rest : list (list N)) (jFirst jLast oFirst : N)
    (st : OSMStore) (c1 c2 c3 c4 : LatpLon) :
  front ot = Val oFirst → back ot = Val jFirst → jFirst ≠ jLast →
  way_store (mmap_file st) !! 200%Z = Some [1; 2; 3]%N →
  way_store (mmap_file st) !! 201%Z = Some [3; 4; 1]%N →
  nodes_at st 1 = Val c1 → nodes_at st 2 = Val c2 →
  nodes_at st 3 = Val c3 → nodes_at st 4 = Val c4 →
  join_results nodes jFirst jLast (ot :: rest) = Val (Some ((ot ++ nodes) :: rest)) ∧
  wayListChains 3 st [200; 201]%Z [] = Val ([[1; 2; 3; 3; 4; 1]%N], []) ∧
  wayListMultiPolygon 3 st [200; 201]%Z []
    = Val (correct [mkPolygon (make_Point <$> [c1; c2; c3; c3; c4; c1]) []]).
Proof.
  intros HoF HoL Hopen H200 H201 H1 H2 H3 H4.
  assert (wayListChains 3 st [200; 201]%Z [] = Val ([[1; 2; 3; 3; 4; 1]%N], []))
    as Hchains.
  { unfold wayListChains.
    rewrite (mergeMultiPolygonWays_ext _ two_outer_ways).
    - vm_compute. reflexivity.
    - intros it Hit. apply elem_of_cons in Hit as [->|Hit]; [by rewrite H200|].
      apply elem_of_cons in Hit as [->|Hit]; [by rewrite H201|].
      by apply elem_of_nil in Hit. }
  split; [|split; [done|]].
  - simpl. rewrite HoF, HoL. simpl.
    apply N.eqb_neq in Hopen. rewrite Hopen. by rewrite N.eqb_refl.
  - unfold wayListMultiPolygon. rewrite Hchains.
    cbn [mbind result_bind mapM fillPoints mret result_ret].
    repeat (first [rewrite H1 | rewrite H2 | rewrite H3 | rewrite H4];
            cbn [mbind result_bind fillPoints]).
    done.
Qed.

Lemma stitch_append_keeps_shared_node_witness :
  join_results [3; 4; 1]%N 3%N 1%N ([1; 2; 3]%N :: [])
    = Val (Some (([1; 2; 3] ++ [3; 4; 1])%N :: [])) ∧
  wayListChains 3 (square_store two_outer_ways) [200; 201]%Z []
    = Val ([[1; 2; 3; 3; 4; 1]%N], []) ∧
  wayListMultiPolygon (BG := example_geometry) 3 (square_store two_outer_ways)
                      [200; 201]%Z []
    = Val (correct (BoostGeometry := example_geometry)
             [mkPolygon (make_Point <$> [mkLatpLon 0 0; mkLatpLon 0 100000000;
                                         mkLatpLon 100000000 100000000;
                                         mkLatpLon 100000000 100000000;
                                         mkLatpLon 100000000 0; mkLatpLon 0 0])
                        []]).
Proof.
  apply (stitch_append_keeps_shared_node
           (BG := example_geometry) [3; 4; 1]%N [1; 2; 3]%N [] 3%N 1%N 1%N
           (square_store two_outer_ways));
    vm_compute; (reflexivity || discriminate).
Defined.

(** C8. The stitching loop exits after at most one pass more than there are
    ways in its input, whatever the input is. When every way of the input is
    in the way store (with at least one node, as every way has) and no chain
    handed in is empty, it exits normally and has marked every way of the
    input as done. *)
Theorem mergeMultiPolygonWays_terminates (ways : gmap Z (list N)) (its : list Z)
    (results : list (list N)) (done : gmap Z bool) (fuel : nat) :
  length its < fuel →
  mergeMultiPolygonWays fuel ways its results done ≠ OutOfFuel ∧
  ((∀ it, it ∈ its → ∃ way, ways !! it = Some way ∧ way ≠ []) →
   Forall (fun c => c ≠ []) results →
   ∃ results' done',
     mergeMultiPolygonWays fuel ways its results done = Val (results', done') ∧
     ∀ it, it ∈ its → done' !! it = Some true).
Proof.
  intros Hfuel. pose proof (undone_le_length done its) as Hle. split.
  - apply merge_loop_has_fuel. lia.
  - intros Hways Hres.
    destruct (merge_loop_total ways its fuel results done) as (r & d & Hrun & _ & Hall);
      [lia|done|done|].
    exists r, d. split; [done|]. intros it Hit. by apply is_done_true, Hall.
Qed.

Lemma mergeMultiPolygonWays_terminates_witness :
  ∃ results' done',
    mergeMultiPolygonWays 3 two_outer_ways [200; 201]%Z [] ∅ = Val (results', done') ∧
    ∀ it, it ∈ [200; 201]%Z → done' !! it = Some true.
Proof.
  refine (proj2 (mergeMultiPolygonWays_terminates
                   two_outer_ways [200; 201]%Z [] ∅ 3 _) _ _).
  - simpl. lia.
  - intros it Hit. apply elem_of_cons in Hit as [->|Hit].
    { exists [1; 2; 3]%N. split; [reflexivity|discriminate]. }
    apply elem_of_cons in Hit as [->|Hit].
    { exists [3; 4; 1]%N. split; [reflexivity|discriminate]. }
    by apply elem_of_nil in Hit.
  - constructor.
Defined.

(** ** The resize-and-retry loop *)

Section RetryLoop.

Context `{SM : SegmentManager}.

Lemma perform_never_bad_alloc {A} (func : OSMStore → result A * OSMStore) :
  ∀ fuel st st', perform_mmap_operation fuel func st ≠ (Raise bad_alloc, st').
Proof.
  induction fuel as [|fuel IH]; intros st st'; simpl; [done|].
  destruct (func st) as [[a|[|what]| |] st1]; try done.
Qed.

(** A property of the store that growing the file keeps, and that every
    attempt keeps whatever its outcome, holds when the loop is left. *)
Lemma perform_preserves {A} (P : OSMStore → Prop)
    (func : OSMStore → result A * OSMStore) :
  (∀ st, P st → P (grow st)) →
  (∀ st r st', P st → func st = (r, st') → P st') →
  ∀ fuel st r st',
    P st → perform_mmap_operation fuel func st = (r, st') → P st'.
Proof.
  intros Hgrow Hfunc. induction fuel as [|fuel IH]; intros st r st' HP; simpl.
  { by intros [= <- <-]. }
  destruct (func st) as [r1 st1] eqn:Hf.
  pose proof (Hfunc _ _ _ HP Hf) as HP1.
  destruct r1 as [a|[|what]| |]; try (by intros [= <- <-]).
  apply IH. by apply Hgrow.
Qed.

Lemma grown_mmap_file st st' : grown st st' → mmap_file st' = mmap_file st.
Proof. induction 1 as [|st st' _ IH]; [done|]. by rewrite IH. Qed.

Lemma grown_file_size st st' : grown st st' → (file_size st ≤ file_size st')%N.
Proof.
  induction 1 as [|st st' _ IH]; [done|].
  unfold reopen, grow in IH. simpl in IH. lia.
Qed.

(** What the loop returns is what one attempt returned, on the store with
    the same content and a file grown some number of times. *)
Lemma perform_atomic_inv {A} (func : OSMStore → result A * OSMStore) :
  atomic func →
  ∀ fuel st r st',
    perform_mmap_operation fuel func st = (r, st') → r ≠ OutOfFuel →
    ∃ st0, grown st st0 ∧ func st0 = (r, st').
Proof.
  intros Hatomic. induction fuel as [|fuel IH]; intros st r st'; simpl.
  { by intros [= <- <-]. }
  destruct (func st) as [r1 st1] eqn:Hf.
  destruct r1 as [a|[|what]| |];
    try (intros [= <- <-] _; exists st; split; [constructor|done]).
  intros Hrun Hr. apply Hatomic in Hf as ->.
  destruct (IH _ _ _ Hrun Hr) as (st0 & Hgrown & Hst0).
  exists st0. split; [by constructor|done].
Qed.

Lemma allocating_atomic {A} (target : Segment → Segment) (a : A) :
  atomic (fun st => allocating (target (mmap_file st)) a st).
Proof.
  intros st st'. unfold allocating.
  destruct (footprint (target (mmap_file st)) <=? file_size st)%N;
    by intros [= <-].
Qed.

Lemma allocating_inv {A} seg (a : A) st r st' :
  allocating seg a st = (r, st') →
  (r = Val a ∧ st' = set_segment seg st ∧ (footprint seg ≤ file_size st)%N) ∨
  (r = Raise bad_alloc ∧ st' = st).
Proof.
  unfold allocating. destruct (footprint seg <=? file_size st)%N eqn:Hfit;
    intros [= <- <-]; [left|by right].
  apply N.leb_le in Hfit. done.
Qed.

(** An allocating attempt succeeds after finitely many doublings, as long
    as what it asks for can be addressed at all. *)
Lemma perform_allocating_returns {A} (target : Segment → Segment) (a : A) :
  ∀ fuel st,
    (footprint (target (mmap_file st)) < size_t_modulus)%N →
    (file_size st = map_size st ∧ (0 < map_size st)%N) ∨
      (footprint (target (mmap_file st)) ≤ file_size st)%N →
    (footprint (target (mmap_file st)) ≤ file_size st * 2 ^ N.of_nat fuel)%N →
    ∃ st0,
      grown st st0 ∧
      perform_mmap_operation (S fuel)
        (fun st => allocating (target (mmap_file st)) a st) st
      = (Val a, set_segment (target (mmap_file st)) st0).
Proof.
  induction fuel as [|fuel IH]; intros st Haddr Hinv Hfit.
  - exists st. split; [constructor|]. simpl. unfold allocating.
    rewrite N.mul_1_r in Hfit. apply N.leb_le in Hfit. by rewrite Hfit.
  - cbn [perform_mmap_operation]. unfold allocating at 1.
    destruct (footprint (target (mmap_file st)) <=? file_size st)%N eqn:Hnow.
    { exists st. split; [constructor|done]. }
    apply N.leb_gt in Hnow.
    destruct Hinv as [[Heq Hpos]|Hle]; [|lia].
    destruct (IH (reopen (grow st))) as (st0 & Hgrown & Hrun).
    + done.
    + unfold reopen, grow, size_t_modulus in *. simpl.
      destruct (decide (map_size st * 2 < 2 ^ 64)%N) as [Hsmall|Hbig].
      * left. rewrite N.mod_small by done. lia.
      * right. lia.
    + unfold reopen, grow. simpl. rewrite <- Heq.
      replace (N.of_nat (S fuel)) with (N.succ (N.of_nat fuel)) in Hfit by lia.
      rewrite N.pow_succ_r' in Hfit. lia.
    + exists st0. split; [by constructor|]. apply Hrun.
Qed.

End RetryLoop.

(** ** [clear] *)

Lemma at_replicate_zero n (i : N) :
  (i < N.of_nat n)%N →
  NodeStoreCompact.at_ (replicate n LatpLon_zero) i = Val LatpLon_zero.
Proof.
  intros Hi. unfold NodeStoreCompact.at_. rewrite length_replicate.
  destruct (N.of_nat n <=? i)%N eqn:Hle; [apply N.leb_le in Hle; lia|].
  rewrite lookup_replicate_2 by lia. done.
Qed.

(** C3 as stated fails for the dense node store: [clear] overwrites its
    slots and keeps them, so its size stays what was reserved. *)
Lemma clear_keeps_dense_size :
  nodes_size (clear (square_store two_outer_ways)) = 5 ∧
  nodes_size (clear (square_store two_outer_ways)) ≠ 0.
Proof. split; vm_compute; [reflexivity|discriminate]. Qed.

(** C3, amended. After [clear()] the way store and the relation store have
    size 0; the hash-map node store has size 0; the dense node store keeps
    the size that was reserved and every slot of it reads as the zero pair;
    the size of the mapped file is unchanged. *)
Theorem clear_sizes (st : OSMStore) :
  ways_size (clear st) = 0 ∧
  relations_size (clear st) = 0 ∧
  match node_store (mmap_file st) with
  | Sparse _ => nodes_size (clear st) = 0
  | Compact v =>
    nodes_size (clear st) = length v ∧
    ∀ i, (i < N.of_nat (length v))%N → nodes_at (clear st) i = Val LatpLon_zero
  end ∧
  getMemorySize (clear st) = getMemorySize st ∧
  file_size (clear st) = file_size st.
Proof.
  destruct st as [[nodes ways relations og sg] fsize msize].
  unfold ways_size, relations_size, nodes_size, nodes_at, impl_nodes_at,
    getMemorySize, clear. simpl.
  repeat split; try done.
  destruct nodes as [v|m]; simpl; [|done].
  unfold NodeStoreCompact.size, NodeStoreCompact.clear.
  rewrite length_replicate. split; [done|]. apply at_replicate_zero.
Qed.

(** ** The hash-map node store keeps the first value of a key *)

(** C4 as stated fails: the second insert under the same id does not
    replace the coordinates of the first. *)
Lemma sparse_second_insert_does_not_win :
  NodeStore.at_
    (NodeStore.insert_back 7 (mkLatpLon 2 2)
       (NodeStore.insert_back 7 (mkLatpLon 1 1) ∅)) 7
  = Val (mkLatpLon 1 1) ∧
  NodeStore.at_
    (NodeStore.insert_back 7 (mkLatpLon 2 2)
       (NodeStore.insert_back 7 (mkLatpLon 1 1) ∅)) 7
  ≠ Val (mkLatpLon 2 2).
Proof. split; vm_compute; [reflexivity|discriminate]. Qed.

(** C4, amended. In the hash-map node store, after [insert(i, c1)] followed
    by [insert(i, c2)], [lookup(i)] returns what it returned after the first
    of the two: the coordinates stored under [i] before them if there were
    any, and [c1] otherwise. The second insert changes nothing. *)
Theorem sparse_first_insert_wins (m : gmap N LatpLon) (i : N) (c1 c2 : LatpLon) :
  NodeStore.insert_back i c2 (NodeStore.insert_back i c1 m)
    = NodeStore.insert_back i c1 m ∧
  NodeStore.at_ (NodeStore.insert_back i c2 (NodeStore.insert_back i c1 m)) i
    = Val (default c1 (m !! i)).
Proof.
  unfold NodeStore.insert_back, NodeStore.at_.
  destruct (m !! i) as [c0|] eqn:Hm; simpl.
  - rewrite Hm. by rewrite Hm.
  - rewrite lookup_insert_eq. by rewrite lookup_insert_eq.
Qed.

(** ** Node lookups across further mutations *)

Section NodeLookup.

Context `{SM : SegmentManager}.

Lemma perform_allocating_inv {A} (target : Segment → Segment) (a : A)
    fuel st r st' :
  perform_mmap_operation fuel
    (fun st => allocating (target (mmap_file st)) a st) st = (r, st') →
  r = OutOfFuel ∨
  (r = Val a ∧ ∃ st0, grown st st0 ∧ st' = set_segment (target (mmap_file st)) st0).
Proof.
  intros Hrun.
  assert (r = OutOfFuel ∨ r ≠ OutOfFuel) as [->|Hr] by (destruct r; auto);
    [by left|right].
  - destruct (perform_atomic_inv _ (allocating_atomic target a) _ _ _ _ Hrun Hr)
      as (st0 & Hgrown & Hst0).
    apply allocating_inv in Hst0 as [(-> & -> & _)|[-> _]].
    + split; [done|]. exists st0. by rewrite (grown_mmap_file _ _ Hgrown).
    + by apply perform_never_bad_alloc in Hrun.
Qed.

Lemma perform_keeps_nodes {A} (func : OSMStore → result A * OSMStore) fuel :
  keeps_nodes func → keeps_nodes (perform_mmap_operation fuel func).
Proof.
  intros Hfunc st r st' Hrun.
  apply (perform_preserves
           (fun s => node_store (mmap_file s) = node_store (mmap_file st))
           func) with (fuel := fuel) (st := st) (r := r); try done.
  intros s r1 s1 Hs Hf. rewrite <- Hs. by eapply Hfunc.
Qed.

Lemma and_then_state {A B} (r : result A * OSMStore)
    (k : A → OSMStore → result B * OSMStore) r' st' :
  (∀ a s, (k a s).2 = s) → and_then r k = (r', st') → st' = r.2.
Proof.
  intros Hk. destruct r as [[a| | |] s]; simpl; try (by intros [= _ <-]).
  intros Hka. specialize (Hk a s). rewrite Hka in Hk. done.
Qed.

Lemma set_generated_node_store g v seg :
  node_store (set_generated g v seg) = node_store seg.
Proof. by destruct g. Qed.

(** Settles [keeps_nodes] for an attempt made of allocating steps. *)
Ltac solve_keeps_nodes :=
  let st := fresh "st" in
  let r := fresh "r" in
  let st' := fresh "st'" in
  let Hrun := fresh "Hrun" in
  intros st r st' Hrun; unfold allocating, and_then in Hrun;
  repeat case_match; simplify_eq; simpl;
  rewrite ?set_generated_node_store; done.

Lemma apply_mutation_keeps_nodes fuel op :
  (∀ i coord, op ≠ insert_node i coord) →
  keeps_nodes (apply_mutation fuel op).
Proof.
  intros Hop. destruct op as [i coord|i nodeVec|i o n|g input|g src|g src];
    [by destruct (Hop i coord)| | | | |];
    intros st r st' Hrun; cbn [apply_mutation] in Hrun;
    unfold discard, ways_insert_back, relations_insert_front, store_point,
      store_linestring, store_multi_polygon in Hrun;
    repeat (apply and_then_state in Hrun; [|done]); subst st';
    match goal with
    | |- context [perform_mmap_operation fuel ?f ?s] =>
      let Hp := fresh "Hp" in
      destruct (perform_mmap_operation fuel f s) as [r1 s1] eqn:Hp;
      apply perform_keeps_nodes in Hp; [by destruct r1|]
    end;
    solve_keeps_nodes.
Qed.

Lemma dense_at_lookup (v : list LatpLon) i c :
  NodeStoreCompact.at_ v i = Val c ↔ v !! N.to_nat i = Some c.
Proof.
  unfold NodeStoreCompact.at_. split.
  - destruct (N.of_nat (length v) <=? i)%N; [done|].
    destruct (v !! N.to_nat i); [|done]. by intros [= ->].
  - intros Hv. pose proof (lookup_lt_Some _ _ _ Hv) as Hlt.
    destruct (N.of_nat (length v) <=? i)%N eqn:Hle;
      [apply N.leb_le in Hle; lia|].
    by rewrite Hv.
Qed.

Lemma holds_dense_at i c st : holds_dense i c st → nodes_at st i = Val c.
Proof.
  intros (v & Hv & Hi). unfold nodes_at, impl_nodes_at. rewrite Hv.
  by apply dense_at_lookup.
Qed.

Lemma holds_sparse_at i c st : holds_sparse i c st → nodes_at st i = Val c.
Proof.
  intros (m & Hm & Hi). unfold nodes_at, impl_nodes_at, NodeStore.at_.
  by rewrite Hm, Hi.
Qed.

Lemma impl_insert_keeps_dense i c j c' st r st' :
  holds_dense i c st → (j = i → c' = c) →
  impl_nodes_insert_back j c' st = (r, st') → holds_dense i c st'.
Proof.
  intros (v & Hv & Hi) Hsame. unfold impl_nodes_insert_back. rewrite Hv.
  unfold NodeStoreCompact.insert_back.
  destruct (N.of_nat (length v) <=? j)%N eqn:Hle; intros [= <- <-].
  { by exists v. }
  exists (<[N.to_nat j := c']> v). split; [done|].
  apply N.leb_gt in Hle. destruct (decide (j = i)) as [->|Hne].
  - rewrite (Hsame eq_refl). apply list_lookup_insert_eq. lia.
  - rewrite list_lookup_insert_ne by lia. done.
Qed.

Lemma impl_insert_keeps_sparse i c j c' st r st' :
  holds_sparse i c st →
  impl_nodes_insert_back j c' st = (r, st') → holds_sparse i c st'.
Proof.
  intros (m & Hm & Hi). unfold impl_nodes_insert_back. rewrite Hm.
  intros Hrun. apply allocating_inv in Hrun as [(_ & -> & _)|[_ ->]];
    [|by exists m].
  exists (NodeStore.insert_back j c' m). split; [done|].
  unfold NodeStore.insert_back. destruct (m !! j) eqn:Hj; [done|].
  rewrite lookup_insert_ne; [done|]. intros ->. congruence.
Qed.

Lemma apply_mutation_keeps_dense fuel op i c st r st' :
  holds_dense i c st → (∀ c', op = insert_node i c' → c' = c) →
  apply_mutation fuel op st = (r, st') → holds_dense i c st'.
Proof.
  intros Hst Hop Hrun.
  assert ((∃ j c', op = insert_node j c') ∨ ∀ j c', op ≠ insert_node j c')
    as [(j & c' & ->)|Hother] by (destruct op; eauto).
  - cbn [apply_mutation] in Hrun.
    apply (perform_preserves (holds_dense i c) (impl_nodes_insert_back j c'))
      with (fuel := fuel) (st := st) (r := r); try done.
    intros s r1 s1 Hs. apply impl_insert_keeps_dense; [done|].
    intros ->. by apply Hop.
  - apply (apply_mutation_keeps_nodes fuel op Hother) in Hrun.
    destruct Hst as (v & Hv & Hi). exists v. by rewrite Hrun.
Qed.

Lemma apply_mutation_keeps_sparse fuel op i c st r st' :
  holds_sparse i c st →
  apply_mutation fuel op st = (r, st') → holds_sparse i c st'.
Proof.
  intros Hst Hrun.
  assert ((∃ j c', op = insert_node j c') ∨ ∀ j c', op ≠ insert_node j c')
    as [(j & c' & ->)|Hother] by (destruct op; eauto).
  - cbn [apply_mutation] in Hrun.
    apply (perform_preserves (holds_sparse i c) (impl_nodes_insert_back j c'))
      with (fuel := fuel) (st := st) (r := r); try done.
    intros s r1 s1 Hs. by apply impl_insert_keeps_sparse.
  - apply (apply_mutation_keeps_nodes fuel op Hother) in Hrun.
    destruct Hst as (m & Hm & Hi). exists m. by rewrite Hrun.
Qed.

Lemma run_mutations_keeps_dense fuel i c ops : ∀ st st',
  holds_dense i c st → (∀ c', insert_node i c' ∈ ops → c' = c) →
  run_mutations fuel ops st = Some st' → holds_dense i c st'.
Proof.
  induction ops as [|op ops IH]; intros st st' Hst Hops; simpl.
  { by intros [= <-]. }
  destruct (apply_mutation fuel op st) as [r s1] eqn:Hop.
  assert (holds_dense i c s1) as Hs1.
  { apply (apply_mutation_keeps_dense fuel op i c st r s1); [done| |done].
    intros c' ->. apply Hops, elem_of_cons. by left. }
  assert (∀ c', insert_node i c' ∈ ops → c' = c) as Hops'.
  { intros c' Hin. apply Hops, elem_of_cons. by right. }
  destruct r; try done; by apply IH.
Qed.

Lemma run_mutations_keeps_sparse fuel i c ops : ∀ st st',
  holds_sparse i c st →
  run_mutations fuel ops st = Some st' → holds_sparse i c st'.
Proof.
  induction ops as [|op ops IH]; intros st st' Hst; simpl.
  { by intros [= <-]. }
  destruct (apply_mutation fuel op st) as [r s1] eqn:Hop.
  pose proof (apply_mutation_keeps_sparse fuel op i c st r s1 Hst Hop) as Hs1.
  destruct r; try done; by apply IH.
Qed.

Lemma impl_nodes_insert_back_atomic i c : atomic (impl_nodes_insert_back i c).
Proof.
  intros st st'. unfold impl_nodes_insert_back.
  destruct (node_store (mmap_file st)) as [v|m].
  - destruct (NodeStoreCompact.insert_back i c v) as [v'|e| |] eqn:Hins;
      try (by intros [= <-]).
    unfold NodeStoreCompact.insert_back in Hins.
    destruct (N.of_nat (length v) <=? i)%N; [|done].
    injection Hins as <-. done.
  - intros Hrun. by apply allocating_inv in Hrun as [(? & _)|[_ ->]].
Qed.

(** What a successful [insert_node(i, c)] leaves in the store. *)
Lemma nodes_insert_back_stored fuel i c st st1 :
  nodes_insert_back fuel i c st = (Val tt, st1) →
  match node_store (mmap_file st) with
  | Compact _ => holds_dense i c st1
  | Sparse m => holds_sparse i (default c (m !! i)) st1
  end.
Proof.
  intros Hrun.
  destruct (perform_atomic_inv _ (impl_nodes_insert_back_atomic i c)
              _ _ _ _ Hrun) as (st0 & Hgrown & Hst0); [done|].
  apply grown_mmap_file in Hgrown. rewrite <- Hgrown.
  unfold impl_nodes_insert_back in Hst0.
  destruct (node_store (mmap_file st0)) as [v|m].
  - unfold NodeStoreCompact.insert_back in Hst0.
    destruct (N.of_nat (length v) <=? i)%N eqn:Hle; [done|].
    injection Hst0 as <-. eexists. split; [done|].
    apply N.leb_gt in Hle. apply list_lookup_insert_eq. lia.
  - apply allocating_inv in Hst0 as [(_ & -> & _)|[? _]]; [|done].
    eexists. split; [done|]. unfold NodeStore.insert_back.
    destruct (m !! i) as [c0|] eqn:Hi; simpl; [done|].
    apply lookup_insert_eq.
Qed.

End NodeLookup.

(** C5 as stated fails in both variants. In the dense store a later insert
    under the same id overwrites the coordinates; in the hash-map store an
    insert under an id that is already there returns normally and stores
    nothing. *)
Lemma node_lookup_not_stable :
  (∃ st1 st2,
     nodes_insert_back (SM := example_manager) 1 2 (mkLatpLon 5 5)
                       (square_store ∅) = (Val tt, st1) ∧
     run_mutations (SM := example_manager) 1
                   [insert_node 2 (mkLatpLon 6 6)] st1 = Some st2 ∧
     nodes_at st2 2 = Val (mkLatpLon 6 6) ∧
     nodes_at st2 2 ≠ Val (mkLatpLon 5 5)) ∧
  (∃ st1,
     nodes_insert_back (SM := example_manager) 1 7 (mkLatpLon 5 5)
                       (sparse_store {[ 7%N := mkLatpLon 1 1 ]})
       = (Val tt, st1) ∧
     nodes_at st1 7 = Val (mkLatpLon 1 1) ∧
     nodes_at st1 7 ≠ Val (mkLatpLon 5 5)).
Proof.
  split.
  - do 2 eexists. split; [vm_compute; reflexivity|].
    split; [vm_compute; reflexivity|]. split; vm_compute; [reflexivity|discriminate].
  - eexists. split; [vm_compute; reflexivity|].
    split; vm_compute; [reflexivity|discriminate].
Qed.

(** C5, amended. After a successful [insert_node(i, c)], and after any
    sequence of further mutations (and no [clear()]), [lookup_node(i)] is
    [c]: in the dense store, provided every later [insert_node] on the same
    id [i] carries the same coordinates [c] (another value would overwrite
    it); in the hash-map store, provided the id [i] was not already stored
    with other coordinates when [insert_node(i, c)] was called (it would
    have kept them). *)
Theorem node_lookup_stable `{SM : SegmentManager} (fuel fuel' : nat)
    (st st1 st2 : OSMStore) (i : N) (c : LatpLon) (ops : list mutation) :
  nodes_insert_back fuel i c st = (Val tt, st1) →
  run_mutations fuel' ops st1 = Some st2 →
  match node_store (mmap_file st) with
  | Compact _ => ∀ c', insert_node i c' ∈ ops → c' = c
  | Sparse m => ∀ c0, m !! i = Some c0 → c0 = c
  end →
  nodes_at st2 i = Val c.
Proof.
  intros Hins Hrun Hcond. apply nodes_insert_back_stored in Hins.
  destruct (node_store (mmap_file st)) as [v|m].
  - apply holds_dense_at. by eapply run_mutations_keeps_dense.
  - apply holds_sparse_at. eapply run_mutations_keeps_sparse; [|done].
    destruct (m !! i) as [c0|]; simpl in *; [|done].
    by rewrite <- (Hcond c0 eq_refl).
Qed.

Lemma node_lookup_stable_witness :
  ∃ st2,
    run_mutations (SM := example_manager) 1
      [insert_node 3 (mkLatpLon 7 7); insert_way 9 [2; 3]%N;
       insert_node 2 (mkLatpLon 5 5); insert_relation (-1) [9]%Z []]
      (nodes_insert_back (SM := example_manager) 1 2 (mkLatpLon 5 5)
                         (square_store ∅)).2
    = Some st2 ∧
    nodes_at st2 2 = Val (mkLatpLon 5 5).
Proof.
  eexists. split; [vm_compute; reflexivity|].
  apply (node_lookup_stable
           (SM := example_manager) 1 1 (square_store ∅)
           (nodes_insert_back (SM := example_manager) 1 2 (mkLatpLon 5 5)
                              (square_store ∅)).2
           _ 2 (mkLatpLon 5 5)
           [insert_node 3 (mkLatpLon 7 7); insert_way 9 [2; 3]%N;
            insert_node 2 (mkLatpLon 5 5); insert_relation (-1) [9]%Z []]).
  - vm_compute. reflexivity.
  - vm_compute. reflexivity.
  - simpl. intros c' Hin.
    repeat (apply elem_of_cons in Hin as [Heq|Hin];
            [by inversion Heq|]).
    by apply elem_of_nil in Hin.
Defined.

(** ** Ways: insertion, handles and linestrings *)

Section Ways.

Context `{SM : SegmentManager}.

Lemma ways_insert_back_inv fuel i nodeVec st r st' :
  ways_insert_back fuel i nodeVec st = (r, st') →
  r = OutOfFuel ∨
  (r = Val (way_handle i) ∧
   ∃ st0, grown st st0 ∧
     st' = set_segment
             (set_way_store
                (WayStore.insert_back i nodeVec (way_store (mmap_file st))).1
                (mmap_file st)) st0).
Proof.
  apply (perform_allocating_inv
           (fun seg => set_way_store
                         (WayStore.insert_back i nodeVec (way_store seg)).1 seg)).
Qed.

Lemma set_way_store_same seg : set_way_store (way_store seg) seg = seg.
Proof. by destruct seg. Qed.

Lemma set_segment_same st : set_segment (mmap_file st) st = st.
Proof. by destruct st. Qed.

Lemma fillPoints_spec st nodes : ∀ acc,
  (∀ n, n ∈ nodes → ∃ ll, nodes_at st n = Val ll) →
  ∃ lls,
    Forall2 (fun n ll => nodes_at st n = Val ll) nodes lls ∧
    fillPoints st acc nodes = Val (acc ++ (make_Point <$> lls)).
Proof.
  induction nodes as [|n nodes IH]; intros acc Hall.
  { exists []. split; [constructor|]. simpl. by rewrite app_nil_r. }
  destruct (Hall n) as [ll Hll]; [by apply elem_of_cons; left|].
  destruct (IH (acc ++ [make_Point ll])) as (lls & Hlls & Hfill).
  { intros m Hm. apply Hall, elem_of_cons. by right. }
  exists (ll :: lls). split; [by constructor|].
  cbn [fillPoints]. rewrite Hll. simpl. rewrite Hfill.
  by rewrite <- app_assoc.
Qed.

(** The number of doublings an allocation may need is finite. *)
Lemma perform_allocating_terminates {A} (target : Segment → Segment) (a : A) st :
  file_size st = map_size st → (0 < map_size st)%N →
  (footprint (target (mmap_file st)) < size_t_modulus)%N →
  ∃ fuel st0,
    grown st st0 ∧
    perform_mmap_operation fuel
      (fun st => allocating (target (mmap_file st)) a st) st
    = (Val a, set_segment (target (mmap_file st)) st0).
Proof.
  intros Heq Hpos Haddr.
  set (x := footprint (target (mmap_file st))).
  destruct (perform_allocating_returns target a (N.to_nat x) st)
    as (st0 & Hgrown & Hrun); [done|by left| |by eauto].
  rewrite N2Nat.id. pose proof (N.pow_gt_lin_r 2 x) as Hpow.
  fold x. nia.
Qed.

End Ways.

(** C6. A way inserted with the node list [nodeVec] under an id the way
    store does not hold yet (the store is insert-once), every node of which
    can be looked up: [nodeListLinestring] on the returned handle produces
    exactly as many points as there are nodes, in the order of the nodes,
    and the k-th point is the pair (lon / 1e7, latp / 1e7) of the
    coordinates that [nodes_at] returns for the k-th node. *)
Theorem way_linestring_round_trip `{SM : SegmentManager} (fuel : nat)
    (i : Z) (nodeVec : list N) (st st' : OSMStore) (h : handle_t) :
  way_store (mmap_file st) !! i = None →
  ways_insert_back fuel i nodeVec st = (Val h, st') →
  (∀ n, n ∈ nodeVec → ∃ ll, nodes_at st' n = Val ll) →
  ∃ ls,
    nodeListLinestring st' h = Val ls ∧
    length ls = length nodeVec ∧
    ∀ k n, nodeVec !! k = Some n →
      ∃ ll, nodes_at st' n = Val ll ∧
            ls !! k = Some (PrimFloat.div (int_to_double (lon ll)) 10000000%float,
                            PrimFloat.div (int_to_double (latp ll)) 10000000%float).
Proof.
  intros Hfresh Hins Hnodes.
  apply ways_insert_back_inv in Hins as [?|([= ->] & st0 & _ & ->)]; [done|].
  unfold WayStore.insert_back in *. rewrite Hfresh in *. cbn [fst] in *.
  set (st1 := set_segment _ st0) in *.
  destruct (fillPoints_spec st1 nodeVec [] Hnodes) as (lls & Hlls & Hfill).
  exists (make_Point <$> lls). split; [|split].
  - unfold nodeListLinestring, retrieve_way. subst st1. simpl.
    rewrite lookup_insert_eq. simpl. apply Hfill.
  - rewrite length_fmap. symmetry. by eapply Forall2_length.
  - intros k n Hk.
    destruct (Forall2_lookup_l _ _ _ _ _ Hlls Hk) as (ll & Hll & Hat).
    exists ll. split; [done|]. rewrite list_lookup_fmap, Hll. done.
Qed.

Lemma way_linestring_round_trip_witness :
  ∃ ls,
    nodeListLinestring
      (ways_insert_back (SM := example_manager) 1 100 [1; 2; 3; 4; 1]%N
                        (square_store ∅)).2
      (way_handle 100) = Val ls ∧
    length ls = length [1; 2; 3; 4; 1]%N ∧
    ∀ k n, [1; 2; 3; 4; 1]%N !! k = Some n →
      ∃ ll,
        nodes_at (ways_insert_back (SM := example_manager) 1 100 [1; 2; 3; 4; 1]%N
                                   (square_store ∅)).2 n = Val ll ∧
        ls !! k = Some (PrimFloat.div (int_to_double (lon ll)) 10000000%float,
                        PrimFloat.div (int_to_double (latp ll)) 10000000%float).
Proof.
  apply (way_linestring_round_trip
           (SM := example_manager) 1 100 [1; 2; 3; 4; 1]%N (square_store ∅)).
  - vm_compute. reflexivity.
  - vm_compute. reflexivity.
  - intros n Hn.
    repeat (apply elem_of_cons in Hn as [->|Hn];
            [eexists; vm_compute; reflexivity|]).
    by apply elem_of_nil in Hn.
Defined.

(** C9. A stored way whose node sequence is empty is reported as closed. *)
Theorem empty_way_is_closed (st : OSMStore) (h : handle_t) :
  retrieve_way st h = Val [] → wayIsClosed st h = Val true.
Proof. intros Hway. unfold wayIsClosed. by rewrite Hway. Qed.

Lemma empty_way_is_closed_witness :
  wayIsClosed (ways_insert_back (SM := example_manager) 1 7 [] (square_store ∅)).2
              (way_handle 7) = Val true.
Proof.
  apply (empty_way_is_closed
           (ways_insert_back (SM := example_manager) 1 7 [] (square_store ∅)).2
           (way_handle 7)).
  vm_compute. reflexivity.
Defined.

(** C10. Inserting a way under an id the way store already holds changes
    nothing that is stored, whatever the node list: no error is raised, the
    handle returned designates the node sequence inserted first, and that
    sequence is unchanged. When the content of the store fits in its file the
    call returns at the first attempt and the store is exactly as before;
    in any case it returns after finitely many attempts. *)
Theorem way_reinsert_is_noop `{SM : SegmentManager} (i : Z)
    (way nodeVec : list N) (st : OSMStore) :
  way_store (mmap_file st) !! i = Some way →
  (∀ fuel r st', ways_insert_back fuel i nodeVec st = (r, st') →
     (r = Val (way_handle i) ∨ r = OutOfFuel) ∧
     mmap_file st' = mmap_file st ∧
     retrieve_way st' (way_handle i) = Val way) ∧
  ((footprint (mmap_file st) ≤ file_size st)%N →
   ∀ fuel, ways_insert_back (S fuel) i nodeVec st = (Val (way_handle i), st)) ∧
  (file_size st = map_size st → (0 < map_size st)%N →
   (footprint (mmap_file st) < size_t_modulus)%N →
   ∃ fuel st', ways_insert_back fuel i nodeVec st = (Val (way_handle i), st')).
Proof.
  intros Hway.
  assert (∀ s, mmap_file s = mmap_file st →
               set_way_store
                 (WayStore.insert_back i nodeVec (way_store (mmap_file s))).1
                 (mmap_file s) = mmap_file st) as Hsame.
  { intros s ->. unfold WayStore.insert_back. rewrite Hway. simpl.
    apply set_way_store_same. }
  split; [|split].
  - intros fuel r st' Hrun.
    assert (mmap_file st' = mmap_file st) as Hseg.
    { apply (perform_preserves (fun s => mmap_file s = mmap_file st) _)
        with (fuel := fuel) (st := st) (r := r) (st' := st') in Hrun; try done.
      intros s r1 s1 Hs Hstep.
      apply allocating_inv in Hstep as [(_ & -> & _)|[_ ->]]; [|done].
      simpl. by apply Hsame. }
    split; [|split; [done|]].
    + apply ways_insert_back_inv in Hrun as [->|[-> _]]; auto.
    + unfold retrieve_way. by rewrite Hseg, Hway.
  - intros Hfit fuel. unfold ways_insert_back. cbn [perform_mmap_operation].
    unfold allocating. rewrite (Hsame st eq_refl).
    apply N.leb_le in Hfit. rewrite Hfit. by rewrite set_segment_same.
  - intros Heq Hpos Haddr.
    destruct (perform_allocating_terminates
                (fun seg => set_way_store
                              (WayStore.insert_back i nodeVec (way_store seg)).1
                              seg)
                (way_handle i) st Heq Hpos) as (fuel & st0 & _ & Hrun).
    { by rewrite (Hsame st eq_refl). }
    by exists fuel, (set_segment
                    (set_way_store
                       (WayStore.insert_back i nodeVec
                                             (way_store (mmap_file st))).1
                       (mmap_file st)) st0).
Qed.

Lemma way_reinsert_is_noop_witness :
  ways_insert_back (SM := example_manager) 1 200 [9; 8; 7]%N
                   (square_store two_outer_ways)
    = (Val (way_handle 200), square_store two_outer_ways) ∧
  retrieve_way (square_store two_outer_ways) (way_handle 200) = Val [1; 2; 3]%N.
Proof.
  pose proof (way_reinsert_is_noop
                (SM := example_manager) 200 [1; 2; 3]%N [9; 8; 7]%N
                (square_store two_outer_ways) eq_refl) as (Hany & Hfit & _).
  assert (ways_insert_back (SM := example_manager) 1 200 [9; 8; 7]%N
                           (square_store two_outer_ways)
          = (Val (way_handle 200), square_store two_outer_ways)) as Hrun.
  { apply Hfit. vm_compute. discriminate. }
  split; [exact Hrun|].
  exact (proj2 (proj2 (Hany 1 _ _ Hrun))).
Defined.

(** ** The retry loop around every mutation *)

Section Mutations.

Context `{SM : SegmentManager}.

Lemma and_then_never_bad_alloc {A B} (r : result A * OSMStore)
    (k : A → OSMStore → result B * OSMStore) st' :
  (∀ s, r ≠ (Raise bad_alloc, s)) →
  (∀ a s, k a s ≠ (Raise bad_alloc, st')) →
  and_then r k ≠ (Raise bad_alloc, st').
Proof.
  intros Hr Hk. destruct r as [[a|e| |] s]; simpl; try done.
  intros [= -> ->]. by apply (Hr st').
Qed.

Lemma apply_mutation_never_bad_alloc fuel op st st' :
  apply_mutation fuel op st ≠ (Raise bad_alloc, st').
Proof.
  destruct op; cbn [apply_mutation];
    unfold discard, nodes_insert_back, ways_insert_back,
      relations_insert_front, store_point, store_linestring,
      store_multi_polygon;
    repeat (apply and_then_never_bad_alloc; [intros ?|done]);
    apply perform_never_bad_alloc.
Qed.

End Mutations.

(** C7. Every mutating operation of the façade runs its body in the retry
    loop. The loop never hands [bad_alloc] to its caller; an attempt that
    succeeds, or that fails in any other way, ends the loop with that very
    outcome and no growth; an attempt that throws [bad_alloc] makes the file
    grow by [map_size] (which doubles it, as long as [map_size] follows the
    size of the file), leaves the content as it is, rebinds the containers
    and is made again. None of the six mutating operations lets [bad_alloc]
    out, an out-of-range node id in the dense store is reported to the
    caller with the store untouched, and an allocation that can be addressed
    at all succeeds after finitely many doublings. *)
Theorem resize_retry_contract `{SM : SegmentManager} {A : Type}
    (func : OSMStore → result A * OSMStore) (fuel : nat) (st : OSMStore) :
  (∀ st', perform_mmap_operation fuel func st ≠ (Raise bad_alloc, st')) ∧
  (∀ r st', func st = (r, st') → r ≠ Raise bad_alloc →
            perform_mmap_operation (S fuel) func st = (r, st')) ∧
  (∀ st', func st = (Raise bad_alloc, st') →
     perform_mmap_operation (S fuel) func st
       = perform_mmap_operation fuel func (reopen (grow st')) ∧
     mmap_file (reopen (grow st')) = mmap_file st' ∧
     file_size (reopen (grow st')) = (file_size st' + map_size st')%N ∧
     (file_size st' = map_size st' → (map_size st' * 2 < size_t_modulus)%N →
      file_size (reopen (grow st')) = (2 * file_size st')%N ∧
      map_size (reopen (grow st')) = (2 * map_size st')%N)) ∧
  (∀ i coord st', nodes_insert_back fuel i coord st ≠ (Raise bad_alloc, st')) ∧
  (∀ i nodeVec st', ways_insert_back fuel i nodeVec st ≠ (Raise bad_alloc, st')) ∧
  (∀ i o n st', relations_insert_front fuel i o n st ≠ (Raise bad_alloc, st')) ∧
  (∀ g input st', store_point fuel g input st ≠ (Raise bad_alloc, st')) ∧
  (∀ g src st', store_linestring fuel g src st ≠ (Raise bad_alloc, st')) ∧
  (∀ g src st', store_multi_polygon fuel g src st ≠ (Raise bad_alloc, st')) ∧
  (∀ v i coord,
     node_store (mmap_file st) = Compact v → (N.of_nat (length v) ≤ i)%N →
     nodes_insert_back (S fuel) i coord st
       = (Raise (out_of_range ("Failed to store node " +:+ pretty i
                               +:+ ", index out of range")), st)) ∧
  (∀ (target : Segment → Segment) (a : A),
     file_size st = map_size st → (0 < map_size st)%N →
     (footprint (target (mmap_file st)) < size_t_modulus)%N →
     ∃ fuel0 st0,
       grown st st0 ∧
       perform_mmap_operation fuel0
         (fun st => allocating (target (mmap_file st)) a st) st
       = (Val a, set_segment (target (mmap_file st)) st0)).
Proof.
  split; [apply perform_never_bad_alloc|].
  split.
  { intros r st' Hf Hr. cbn [perform_mmap_operation]. rewrite Hf.
    by destruct r as [a|[|what]| |]. }
  split.
  { intros st' Hf. cbn [perform_mmap_operation]. rewrite Hf.
    split; [done|]. split; [done|]. split; [done|].
    intros Heq Hsmall. unfold reopen, grow. simpl.
    rewrite N.mod_small by done. lia. }
  split; [intros; apply perform_never_bad_alloc|].
  split; [intros; apply perform_never_bad_alloc|].
  split; [intros; apply perform_never_bad_alloc|].
  split.
  { intros g input st'. unfold store_point.
    apply and_then_never_bad_alloc; [intros ?|done].
    apply perform_never_bad_alloc. }
  split.
  { intros g src st'. unfold store_linestring.
    apply and_then_never_bad_alloc; [intros ?|done].
    apply perform_never_bad_alloc. }
  split.
  { intros g src st'. unfold store_multi_polygon.
    apply and_then_never_bad_alloc; [intros ?|done].
    apply perform_never_bad_alloc. }
  split.
  { intros v i coord Hv Hi. unfold nodes_insert_back.
    cbn [perform_mmap_operation]. unfold impl_nodes_insert_back.
    rewrite Hv. unfold NodeStoreCompact.insert_back.
    apply N.leb_le in Hi. by rewrite Hi. }
  intros target a. apply perform_allocating_terminates.
Qed.

Lemma resize_retry_contract_witness :
  perform_mmap_operation 3
    (fun st =>
       allocating (SM := example_manager)
         (set_way_store
            (WayStore.insert_back 5 [1; 2]%N (way_store (mmap_file st))).1
            (mmap_file st))
         (way_handle 5) st)
    tiny_store
  = perform_mmap_operation 2
      (fun st =>
         allocating (SM := example_manager)
           (set_way_store
              (WayStore.insert_back 5 [1; 2]%N (way_store (mmap_file st))).1
              (mmap_file st))
           (way_handle 5) st)
      (reopen (grow tiny_store)) ∧
  file_size (reopen (grow tiny_store)) = 32%N ∧
  ways_insert_back (SM := example_manager) 3 5 [1; 2]%N tiny_store
  = (Val (way_handle 5),
     mkOSMStore (mkSegment (Sparse ∅) {[ 5%Z := [1; 2]%N ]} ∅
                           no_geometries no_geometries) 64 64).
Proof.
  pose proof (resize_retry_contract
                (SM := example_manager)
                (fun st =>
                   allocating (SM := example_manager)
                     (set_way_store
                        (WayStore.insert_back 5 [1; 2]%N
                                              (way_store (mmap_file st))).1
                        (mmap_file st))
                     (way_handle 5) st)
                2 tiny_store) as (_ & _ & Hgrow & _).
  destruct (Hgrow tiny_store) as (Hretry & _ & Hsize & _).
  { vm_compute. reflexivity. }
  split; [exact Hretry|]. split; [exact Hsize|].
  vm_compute. reflexivity.
Defined.

(** * Further properties of the code *)

(** ** Stitching: ways that are done are never looked at again *)

Lemma done_at_done it (d : gmap Z bool) :
  d !! it = Some true → done_at it d = (true, d).
Proof. intros Hd. unfold done_at. by rewrite Hd. Qed.

Lemma merge_ways_all_done ways its : ∀ r d a,
  (∀ it, it ∈ its → d !! it = Some true) →
  merge_ways ways its (r, d, a) = Val (r, d, a).
Proof.
  induction its as [|it its IH]; intros r d a Hall; [done|].
  cbn [merge_ways]. unfold merge_way.
  rewrite done_at_done by (apply Hall, elem_of_cons; by left). simpl.
  apply IH. intros j Hj. apply Hall, elem_of_cons. by right.
Qed.

Lemma seed_way_all_done ways its : ∀ r d,
  (∀ it, it ∈ its → d !! it = Some true) →
  seed_way ways its r d = Val (r, d, 0%Z).
Proof.
  induction its as [|it its IH]; intros r d Hall; [done|]. simpl.
  rewrite done_at_done by (apply Hall, elem_of_cons; by left).
  apply IH. intros j Hj. apply Hall, elem_of_cons. by right.
Qed.

Lemma merge_all_done ways its results (d : gmap Z bool) fuel :
  (∀ it, it ∈ its → d !! it = Some true) →
  mergeMultiPolygonWays (S fuel) ways its results d = Val (results, d).
Proof.
  intros Hall. cbn [mergeMultiPolygonWays]. unfold merge_pass.
  rewrite merge_ways_all_done by done. simpl.
  by rewrite seed_way_all_done.
Qed.

Lemma merge_returns_all_done ways its : ∀ fuel r d r' d',
  mergeMultiPolygonWays fuel ways its r d = Val (r', d') →
  ∀ it, it ∈ its → d' !! it = Some true.
Proof.
  induction fuel as [|fuel IH]; intros r d r' d'; [done|].
  cbn [mergeMultiPolygonWays]. intros Hrun.
  apply bind_Val in Hrun as ([[r1 d1] a1] & Hpass & Hrest).
  apply merge_pass_progress in Hpass as (_ & Hnonneg & Hzero & _).
  destruct (0 <? a1)%Z eqn:Hpos.
  - by eapply IH.
  - injection Hrest as <- <-. apply Z.ltb_ge in Hpos.
    intros it Hit. apply is_done_true, Hzero; [lia|done].
Qed.

(** X1. A pass over ways that are all marked done changes nothing and reads
    nothing from the way store (the ways need not even be stored); hence a
    run that has returned can be repeated on its own result any number of
    times without effect. *)
Theorem merge_is_idempotent (ways : gmap Z (list N)) (its : list Z)
    (results results' : list (list N)) (done done' : gmap Z bool)
    (fuel fuel' : nat) :
  mergeMultiPolygonWays fuel ways its results done = Val (results', done') →
  (∀ it, it ∈ its → done' !! it = Some true) ∧
  (∀ ways', mergeMultiPolygonWays (S fuel') ways' its results' done'
            = Val (results', done')).
Proof.
  intros Hrun. pose proof (merge_returns_all_done _ _ _ _ _ _ _ Hrun) as Hall.
  split; [done|]. intros ways'. by apply merge_all_done.
Qed.

Lemma merge_is_idempotent_witness :
  mergeMultiPolygonWays 1 ∅ [200; 201]%Z [[1; 2; 3; 3; 4; 1]%N]
                        (<[201%Z := true]> (<[200%Z := true]> ∅))
  = Val ([[1; 2; 3; 3; 4; 1]%N], <[201%Z := true]> (<[200%Z := true]> ∅)).
Proof.
  assert (mergeMultiPolygonWays 3 two_outer_ways [200; 201]%Z [] ∅
          = Val ([[1; 2; 3; 3; 4; 1]%N],
                 <[201%Z := true]> (<[200%Z := true]> (∅ : gmap Z bool))))
    as Hrun by (vm_compute; reflexivity).
  exact (proj2 (merge_is_idempotent _ _ _ _ _ _ 3 0 Hrun) ∅).
Defined.

(** X2. The [done] map is shared by the two stitching runs of a relation: a
    way that is listed as outer is never stitched again as inner. When
    every inner way is also an outer way, there is no inner chain at all. *)
Theorem inner_ways_already_outer (fuel : nat)
    (st : OSMStore) (outerWays innerWays : list Z)
    (outers inners : list (list N)) :
  wayListChains fuel st outerWays innerWays = Val (outers, inners) →
  (∀ it, it ∈ innerWays → it ∈ outerWays) →
  inners = [].
Proof.
  unfold wayListChains. intros Hrun Hsub.
  apply bind_Val in Hrun as ([r1 d1] & Houter & Hrun).
  apply bind_Val in Hrun as ([r2 d2] & Hinner & [= <- <-]).
  pose proof (merge_returns_all_done _ _ _ _ _ _ _ Houter) as Hall.
  destruct fuel as [|fuel]; [done|].
  rewrite merge_all_done in Hinner by (intros it Hit; by apply Hall, Hsub).
  by injection Hinner as <- _.
Qed.

Lemma inner_ways_already_outer_witness :
  ∃ outers inners,
    wayListChains 3 (square_store two_outer_ways) [200; 201]%Z [201]%Z
      = Val (outers, inners) ∧ inners = [].
Proof.
  assert (wayListChains 3 (square_store two_outer_ways) [200; 201]%Z [201]%Z
          = Val ([[1; 2; 3; 3; 4; 1]%N], [])) as Hrun
    by (vm_compute; reflexivity).
  exists [[1; 2; 3; 3; 4; 1]%N], []. split; [exact Hrun|].
  apply (inner_ways_already_outer 3 (square_store two_outer_ways)
           [200; 201]%Z [201]%Z _ _ Hrun).
  intros it Hit. apply list_elem_of_singleton in Hit as ->.
  apply elem_of_cons. right. apply elem_of_cons. by left.
Defined.

(** ** Stitching neither loses nor invents nodes *)

Lemma join_results_perm nodes jFirst jLast results : ∀ r',
  join_results nodes jFirst jLast results = Val (Some r') →
  length r' = length results ∧ concat r' ≡ₚ concat results ++ nodes.
Proof.
  induction results as [|ot rest IH]; intros r'; simpl; [done|].
  do 2 case_step.
  assert (∀ r0 : option (list (list N)),
            join_results nodes jFirst jLast rest = Val r0 →
            fmap (M := option) (cons ot) r0 = Some r' →
            length r' = S (length rest) ∧
            concat r' ≡ₚ (ot ++ concat rest) ++ nodes) as Hcont.
  { intros [r0|] Hr0; simpl; [|done]. intros [= <-].
    destruct (IH r0 Hr0) as [Hlen Hperm]. simpl. split; [by rewrite Hlen|].
    by rewrite Hperm, app_assoc. }
  repeat case_match;
    try (case_step; intros [= Hf]; by eapply Hcont);
    intros [= <-]; (split; [done|]); simpl.
  - rewrite <- !app_assoc. f_equiv. apply Permutation_app_comm.
  - rewrite <- Permutation_rev, <- !app_assoc. f_equiv.
    apply Permutation_app_comm.
  - rewrite <- app_assoc. apply Permutation_app_comm.
  - rewrite <- Permutation_rev, <- app_assoc. apply Permutation_app_comm.
Qed.

Lemma merge_way_cases ways r d a it r' d' a' :
  merge_way ways (r, d, a) it = Val (r', d', a') →
  (a' = a ∧ r' = r ∧ ∀ j, is_done d' j = is_done d j) ∨
  (a' = (a + 1)%Z ∧ is_done d it = false ∧ is_done d' it = true ∧
   (∀ j, j ≠ it → is_done d' j = is_done d j) ∧
   ∃ way, ways !! it = Some way ∧ concat r' ≡ₚ concat r ++ way).
Proof.
  unfold merge_way. destruct (done_at it d) as [skip d1] eqn:Hd.
  apply done_at_spec in Hd as [-> Hsame].
  destruct (is_done d it) eqn:Hdone.
  { intros [= <- <- <-]. by left. }
  unfold WayStore.at_. destruct (ways !! it) as [way|] eqn:Hway; [|done].
  simpl. case_step. destruct a0.
  { intros [= <- <- <-]. right. split; [done|]. split; [done|].
    split; [apply is_done_insert_true|]. split.
    - intros j Hne. by rewrite is_done_insert_ne.
    - exists way. split; [done|]. rewrite concat_app. simpl.
      by rewrite app_nil_r. }
  repeat case_step. case_match; intros [= <- <- <-].
  - right. split; [done|]. split; [done|].
    split; [apply is_done_insert_true|]. split.
    + intros j Hne. by rewrite is_done_insert_ne.
    + exists way. split; [done|]. by eapply join_results_perm.
  - by left.
Qed.

Lemma nodes_of_ways_snoc ways l it way :
  ways !! it = Some way →
  nodes_of_ways ways (l ++ [it]) = nodes_of_ways ways l ++ way.
Proof.
  intros Hway. unfold nodes_of_ways. rewrite map_app, concat_app. simpl.
  by rewrite Hway, app_nil_r.
Qed.

(** Taking one more way, which was not done, into the chains. *)
Lemma consumed_step ways its r0 d0 l r d it way r' d' :
  consumed ways its r0 d0 l r d →
  it ∈ its → is_done d it = false → is_done d' it = true →
  (∀ j, j ≠ it → is_done d' j = is_done d j) →
  ways !! it = Some way → concat r' ≡ₚ concat r ++ way →
  consumed ways its r0 d0 (l ++ [it]) r' d'.
Proof.
  intros (Hnodup & Hl & Hd & Hperm) Hit Hundone Hdone Hframe Hway Hperm'.
  assert (it ∉ l) as Hnotin.
  { intros Hin. assert (is_done d it = true) by (apply Hd; by right).
    congruence. }
  split; [|split; [|split]].
  - apply NoDup_app. split; [done|]. split.
    + intros j Hj Hj'. apply list_elem_of_singleton in Hj' as ->. done.
    + apply NoDup_singleton.
  - intros j Hj. apply elem_of_app in Hj as [Hj|Hj]; [by apply Hl|].
    apply list_elem_of_singleton in Hj as ->. split; [done|]. split; [|by eexists].
    destruct (is_done d0 it) eqn:Hd0; [|done].
    assert (is_done d it = true) by (apply Hd; by left). congruence.
  - intros j. destruct (decide (j = it)) as [->|Hne].
    + split; [|done]. intros _. right. apply elem_of_app. right.
      by apply list_elem_of_singleton.
    + rewrite Hframe by done. rewrite Hd. split.
      * intros [?|?]; [by left|right]. apply elem_of_app. by left.
      * intros [?|Hj]; [by left|]. apply elem_of_app in Hj as [?|Hj]; [by right|].
        by apply list_elem_of_singleton in Hj.
  - rewrite Hperm', Hperm, (nodes_of_ways_snoc _ _ _ _ Hway).
    by rewrite app_assoc.
Qed.

Lemma consumed_same ways its r0 d0 l r d d' :
  consumed ways its r0 d0 l r d →
  (∀ j, is_done d' j = is_done d j) →
  consumed ways its r0 d0 l r d'.
Proof.
  intros (Hnodup & Hl & Hd & Hperm) Hsame.
  split; [done|]. split; [done|]. split; [|done].
  intros j. rewrite Hsame. apply Hd.
Qed.

Lemma merge_ways_consumed ways its0 r0 d0 its : ∀ l r d a r' d' a',
  (∀ it, it ∈ its → it ∈ its0) →
  consumed ways its0 r0 d0 l r d →
  merge_ways ways its (r, d, a) = Val (r', d', a') →
  ∃ l', consumed ways its0 r0 d0 l' r' d'.
Proof.
  induction its as [|it its IH]; intros l r d a r' d' a' Hsub Hinv; simpl.
  { intros [= <- <- <-]. by exists l. }
  intros Hrun. apply bind_Val in Hrun as ([[r1 d1] a1] & Hstep & Hrest).
  assert (∀ j, j ∈ its → j ∈ its0) as Hsub'.
  { intros j Hj. apply Hsub, elem_of_cons. by right. }
  apply merge_way_cases in Hstep
    as [(-> & -> & Hsame)|(-> & Hf & Ht & Hframe & way & Hway & Hperm)].
  - eapply IH; [done| |done]. by eapply consumed_same.
  - eapply IH; [done| |done].
    eapply consumed_step; try done. apply Hsub, elem_of_cons. by left.
Qed.

Lemma seed_way_consumed ways its0 r0 d0 its : ∀ l r d r' d' a',
  (∀ it, it ∈ its → it ∈ its0) →
  consumed ways its0 r0 d0 l r d →
  seed_way ways its r d = Val (r', d', a') →
  ∃ l', consumed ways its0 r0 d0 l' r' d'.
Proof.
  induction its as [|it its IH]; intros l r d r' d' a' Hsub Hinv; simpl.
  { intros [= <- <- <-]. by exists l. }
  destruct (done_at it d) as [skip d1] eqn:Hd.
  apply done_at_spec in Hd as [-> Hsame].
  assert (∀ j, j ∈ its → j ∈ its0) as Hsub'.
  { intros j Hj. apply Hsub, elem_of_cons. by right. }
  destruct (is_done d it) eqn:Hdone.
  - intros Hrun. eapply IH; [done| |done]. by eapply consumed_same.
  - unfold WayStore.at_. destruct (ways !! it) as [way|] eqn:Hway; [|done].
    simpl. intros [= <- <- <-]. exists (l ++ [it]).
    apply (consumed_step ways its0 r0 d0 l r d it way); try done.
    + apply Hsub, elem_of_cons. by left.
    + rewrite is_done_insert_true. done.
    + intros j Hne. rewrite is_done_insert_ne by done. apply Hsame.
    + rewrite concat_app. simpl. by rewrite app_nil_r.
Qed.

Lemma merge_loop_consumed ways its r0 d0 : ∀ fuel l r d r' d',
  consumed ways its r0 d0 l r d →
  mergeMultiPolygonWays fuel ways its r d = Val (r', d') →
  ∃ l', consumed ways its r0 d0 l' r' d'.
Proof.
  induction fuel as [|fuel IH]; intros l r d r' d' Hinv; [done|].
  cbn [mergeMultiPolygonWays]. intros Hrun.
  apply bind_Val in Hrun as ([[r1 d1] a1] & Hpass & Hrest).
  assert (∃ l1, consumed ways its r0 d0 l1 r1 d1) as [l1 Hinv1].
  { unfold merge_pass in Hpass.
    apply bind_Val in Hpass as ([[r2 d2] a2] & Hloop & Hseed).
    destruct (merge_ways_consumed ways its r0 d0 its l r d 0%Z r2 d2 a2)
      as [l2 Hinv2]; try done.
    destruct (a2 =? 0)%Z.
    - by eapply (seed_way_consumed ways its r0 d0 its l2).
    - injection Hseed as <- <- <-. by exists l2. }
  destruct (0 <? a1)%Z.
  - by eapply IH.
  - injection Hrest as <- <-. by exists l1.
Qed.

(** X3. Whatever a stitching run returns, the nodes of its chains are the
    nodes of the chains it was given together with the nodes of the ways it
    took in, each of these ways counted once: nothing is lost and nothing
    is invented. The ways it took in are exactly the ways of the input that
    were not done when it started, and all of them were found in the way
    store. *)
Theorem stitching_conserves_nodes (ways : gmap Z (list N)) (its : list Z)
    (results results' : list (list N)) (done done' : gmap Z bool) (fuel : nat) :
  mergeMultiPolygonWays fuel ways its results done = Val (results', done') →
  ∃ l,
    NoDup l ∧
    (∀ j, j ∈ l ↔ j ∈ its ∧ is_done done j = false) ∧
    (∀ j, j ∈ l → is_Some (ways !! j)) ∧
    concat results' ≡ₚ concat results ++ nodes_of_ways ways l.
Proof.
  intros Hrun.
  destruct (merge_loop_consumed ways its results done fuel [] results done
              results' done') as (l & Hnodup & Hl & Hd & Hperm); [|done|].
  { split; [constructor|]. split; [by intros j Hj%elem_of_nil|].
    split; [|by rewrite app_nil_r].
    intros j. split; [by left|]. by intros [?|?%elem_of_nil]. }
  exists l. split; [done|]. split; [|split; [|done]].
  - intros j. split.
    + intros Hj. by destruct (Hl j Hj) as (? & ? & _).
    + intros [Hj Hundone].
      pose proof (merge_returns_all_done _ _ _ _ _ _ _ Hrun j Hj) as Hdone.
      assert (is_done done' j = true) as Hdone'
        by (unfold is_done; by rewrite Hdone).
      apply Hd in Hdone' as [?|?]; [congruence|done].
  - intros j Hj. by destruct (Hl j Hj) as (_ & _ & ?).
Qed.

Lemma stitching_conserves_nodes_witness :
  ∃ l,
    NoDup l ∧
    (∀ j, j ∈ l ↔ j ∈ [200; 201]%Z ∧ is_done ∅ j = false) ∧
    (∀ j, j ∈ l → is_Some (two_outer_ways !! j)) ∧
    concat [[1; 2; 3; 3; 4; 1]%N] ≡ₚ concat [] ++ nodes_of_ways two_outer_ways l.
Proof.
  apply (stitching_conserves_nodes two_outer_ways [200; 201]%Z []
           [[1; 2; 3; 3; 4; 1]%N] ∅
           (<[201%Z := true]> (<[200%Z := true]> (∅ : gmap Z bool))) 3).
  vm_compute. reflexivity.
Defined.

(** ** Stitching: when a way is joined, emitted or reported *)

(** X4. An open way is joined to a chain exactly when some chain has an end
    in common with it: the search over the chains finds nothing if and only
    if no chain touches the way, and when it joins, the number of chains is
    unchanged. *)
Theorem join_results_iff_touching (nodes : list N) (jFirst jLast : N)
    (results : list (list N)) :
  jFirst ≠ jLast → Forall (fun c => c ≠ []) results →
  ∃ r,
    join_results nodes jFirst jLast results = Val r ∧
    (r = None ↔ Forall (fun ot => ¬ touches jFirst jLast ot) results) ∧
    (∀ r', r = Some r' → length r' = length results).
Proof.
  intros Hopen%N.eqb_neq Hres.
  induction Hres as [|ot rest Hot Hrest (r & Hr & Hiff & Hlen)].
  { exists None. split; [done|]. split; [|done]. split; [constructor|done]. }
  cbn [join_results]. unfold front, back, touches in *.
  destruct (head ot) as [oFirst|] eqn:Hhead; [|by apply head_None in Hhead].
  destruct (last ot) as [oLast|] eqn:Hlast; [|by apply last_None in Hlast].
  simpl. rewrite Hopen, Hr. simpl.
  destruct (N.eqb_spec oLast jFirst) as [->|H1].
  { eexists. split; [done|]. split; [|by intros r' [= <-]].
    split; [done|]. intros Hall%Forall_cons_1. destruct Hall as [Hno _].
    destruct Hno. by left. }
  destruct (N.eqb_spec oLast jLast) as [->|H2].
  { eexists. split; [done|]. split; [|by intros r' [= <-]].
    split; [done|]. intros Hall%Forall_cons_1. destruct Hall as [Hno _].
    destruct Hno. right. by left. }
  destruct (N.eqb_spec jLast oFirst) as [->|H3].
  { eexists. split; [done|]. split; [|by intros r' [= <-]].
    split; [done|]. intros Hall%Forall_cons_1. destruct Hall as [Hno _].
    destruct Hno. right. right. by left. }
  destruct (N.eqb_spec jFirst oFirst) as [->|H4].
  { eexists. split; [done|]. split; [|by intros r' [= <-]].
    split; [done|]. intros Hall%Forall_cons_1. destruct Hall as [Hno _].
    destruct Hno. by repeat right. }
  exists (cons ot <$> r). split; [done|]. split.
  - destruct r as [r0|]; simpl.
    + split; [done|]. intros Hall%Forall_cons_1. destruct Hall as [_ Hall].
      by apply Hiff in Hall.
    + split; [|done]. intros _. constructor; [|by apply Hiff].
      intros [[= ?]|[[= ?]|[[= ?]|[= ?]]]]; congruence.
  - intros r' Hr'. destruct r as [r0|]; simpl in Hr'; [|done].
    injection Hr' as <-. simpl. by rewrite (Hlen r0 eq_refl).
Qed.

Lemma join_results_iff_touching_witness :
  ∃ r,
    join_results [3; 4; 1]%N 3%N 1%N [[7; 8]%N; [1; 2; 3]%N] = Val r ∧
    (r = None ↔
     Forall (fun ot => ¬ touches 3%N 1%N ot) [[7; 8]%N; [1; 2; 3]%N]) ∧
    (∀ r', r = Some r' → length r' = length [[7; 8]%N; [1; 2; 3]%N]).
Proof.
  apply (join_results_iff_touching [3; 4; 1]%N 3%N 1%N
           [[7; 8]%N; [1; 2; 3]%N]).
  - discriminate.
  - repeat constructor; discriminate.
Defined.

Lemma merge_ways_frame ways its : ∀ r d a r' d' a',
  merge_ways ways its (r, d, a) = Val (r', d', a') →
  ∀ j, j ∉ its → is_done d' j = is_done d j.
Proof.
  induction its as [|it its IH]; intros r d a r' d' a'; simpl.
  { by intros [= <- <- <-]. }
  intros Hrun j Hj. apply bind_Val in Hrun as ([[r1 d1] a1] & Hstep & Hrest).
  apply not_elem_of_cons in Hj as [Hne Hj].
  rewrite (IH _ _ _ _ _ _ Hrest j Hj).
  apply merge_way_cases in Hstep
    as [(_ & _ & Hsame)|(_ & _ & _ & Hframe & _)]; [apply Hsame|].
  by apply Hframe.
Qed.

Lemma merge_ways_app ways its1 its2 acc :
  merge_ways ways (its1 ++ its2) acc
  = merge_ways ways its1 acc ≫= merge_ways ways its2.
Proof.
  revert acc. induction its1 as [|it its1 IH]; intros acc; [done|].
  cbn [app merge_ways]. destruct (merge_way ways acc it); simpl; done.
Qed.

(** X5. A way of the input that is missing from the way store, and not
    marked done, stops the stitching with the exception of the way store,
    which names the id, as soon as the first pass reaches it: a dangling
    reference surfaces at assembly time, never at insertion. *)
Theorem dangling_way_is_reported (ways : gmap Z (list N))
    (before after : list Z) (j : Z) (results : list (list N))
    (done : gmap Z bool) (fuel : nat) :
  ways !! j = None → is_done done j = false →
  (∀ it, it ∈ before → ∃ way, ways !! it = Some way ∧ way ≠ []) →
  Forall (fun c => c ≠ []) results →
  mergeMultiPolygonWays (S fuel) ways (before ++ j :: after) results done
  = Raise (out_of_range ("Could not find way " +:+ pretty j)).
Proof.
  intros Hmissing Hundone Hbefore Hres.
  destruct (merge_ways_total ways before results done 0%Z Hbefore Hres)
    as (r1 & d1 & a1 & Hrun & _).
  assert (j ∉ before) as Hnotin.
  { intros Hin. destruct (Hbefore j Hin) as (way & Hway & _). congruence. }
  pose proof (merge_ways_frame _ _ _ _ _ _ _ _ Hrun j Hnotin) as Hframe.
  cbn [mergeMultiPolygonWays]. unfold merge_pass.
  rewrite merge_ways_app, Hrun. cbn [mbind result_bind merge_ways].
  unfold merge_way. destruct (done_at j d1) as [skip d2] eqn:Hd.
  apply done_at_spec in Hd as [-> _]. rewrite Hframe, Hundone.
  unfold WayStore.at_. by rewrite Hmissing.
Qed.

Lemma dangling_way_is_reported_witness :
  mergeMultiPolygonWays 1 two_outer_ways ([200]%Z ++ 999%Z :: [201]%Z) [] ∅
  = Raise (out_of_range ("Could not find way " +:+ pretty 999%Z)).
Proof.
  apply (dangling_way_is_reported two_outer_ways [200]%Z [201]%Z 999%Z [] ∅ 0).
  - reflexivity.
  - reflexivity.
  - intros it Hit. apply list_elem_of_singleton in Hit as ->.
    exists [1; 2; 3]%N. split; [reflexivity|discriminate].
  - constructor.
Defined.

Lemma merge_ways_closed ways its : ∀ r d a,
  NoDup its →
  (∀ it, it ∈ its → is_done d it = false) →
  (∀ it, it ∈ its → ∃ way, ways !! it = Some way ∧ isClosed way = Val true) →
  ∃ d',
    merge_ways ways its (r, d, a)
    = Val (r ++ map (fun it => default [] (ways !! it)) its, d',
           (a + Z.of_nat (length its))%Z) ∧
    (∀ it, it ∈ its → is_done d' it = true).
Proof.
  induction its as [|it its IH]; intros r d a Hnodup Hundone Hclosed.
  { exists d. simpl. rewrite app_nil_r, Z.add_0_r. split; [done|].
    by intros it Hit%elem_of_nil. }
  apply NoDup_cons in Hnodup as [Hnotin Hnodup].
  destruct (Hclosed it) as (way & Hway & Hcl); [by apply elem_of_cons; left|].
  cbn [merge_ways]. unfold merge_way at 1.
  destruct (done_at it d) as [skip d1] eqn:Hd.
  apply done_at_spec in Hd as [-> Hsame].
  rewrite (Hundone it) by (apply elem_of_cons; by left).
  unfold WayStore.at_. rewrite Hway. simpl. rewrite Hcl. simpl.
  destruct (IH (r ++ [way]) (<[it := true]> d1) (a + 1)%Z) as (d' & Hrun & Hall).
  - done.
  - intros j Hj. rewrite is_done_insert_ne by (intros ->; done).
    rewrite Hsame. apply Hundone, elem_of_cons. by right.
  - intros j Hj. apply Hclosed, elem_of_cons. by right.
  - exists d'. split.
    + rewrite Hrun. rewrite Hway. simpl. rewrite <- app_assoc. simpl.
      do 2 f_equal. lia.
    + intros j Hj. apply elem_of_cons in Hj as [->|Hj]; [|by apply Hall].
      apply merge_ways_progress in Hrun as (Hle & _).
      apply Hle, is_done_insert_true.
Qed.

(** X6. Ways that are closed are added as they are: when the ways of the
    input are distinct, not yet done, and every one of them is a closed ring,
    the run appends them to the chains, one chain per way, in the order of
    the input, and touches no chain it was given. *)
Theorem closed_ways_emitted_as_is (ways : gmap Z (list N)) (its : list Z)
    (results : list (list N)) (done : gmap Z bool) (fuel : nat) :
  NoDup its →
  (∀ it, it ∈ its → is_done done it = false) →
  (∀ it, it ∈ its → ∃ way, ways !! it = Some way ∧ isClosed way = Val true) →
  ∃ done',
    mergeMultiPolygonWays (S (S fuel)) ways its results done
    = Val (results ++ map (fun it => default [] (ways !! it)) its, done').
Proof.
  intros Hnodup Hundone Hclosed.
  destruct (merge_ways_closed ways its results done 0%Z Hnodup Hundone Hclosed)
    as (d' & Hrun & Hall).
  exists d'. destruct its as [|it its].
  - assert (d' = done) as -> by (simpl in Hrun; congruence).
    simpl. by rewrite app_nil_r.
  - cbn [mergeMultiPolygonWays]. unfold merge_pass. rewrite Hrun.
    cbn [mbind result_bind].
    replace (0 + Z.of_nat (length (it :: its)) =? 0)%Z with false
      by (symmetry; apply Z.eqb_neq; simpl; lia).
    cbn [mbind result_bind].
    replace (0 <? 0 + Z.of_nat (length (it :: its)))%Z with true
      by (symmetry; apply Z.ltb_lt; simpl; lia).
    rewrite merge_ways_all_done by (intros j Hj; by apply is_done_true, Hall).
    cbn [mbind result_bind Z.eqb].
    by rewrite seed_way_all_done
      by (intros j Hj; by apply is_done_true, Hall).
Qed.

Lemma closed_ways_emitted_as_is_witness :
  ∃ done',
    mergeMultiPolygonWays 2 closed_and_open_ways [1]%Z [[9; 9]%N] ∅
    = Val ([[9; 9]%N] ++ map (fun it => default [] (closed_and_open_ways !! it))
                             [1]%Z, done').
Proof.
  apply (closed_ways_emitted_as_is closed_and_open_ways [1]%Z [[9; 9]%N] ∅ 0).
  - apply NoDup_singleton.
  - intros it Hit. apply list_elem_of_singleton in Hit as ->. reflexivity.
  - intros it Hit. apply list_elem_of_singleton in Hit as ->.
    exists [1; 2; 3; 1]%N. split; reflexivity.
Defined.

(** ** The node stores through the façade *)

Section NodeStores.

Context `{SM : SegmentManager}.

Lemma reserve_stores_atomic n w : atomic (reserve_stores n w).
Proof.
  intros st st'. unfold reserve_stores.
  destruct (node_store (mmap_file st)) as [v|m]; [|done].
  destruct (max_size <? n)%N; [by intros [= <-]|].
  intros Hrun. by apply allocating_inv in Hrun as [(? & _)|[_ ->]].
Qed.

Lemma dense_at_out_of_range (v : list LatpLon) i :
  (N.of_nat (length v) ≤ i)%N →
  NodeStoreCompact.at_ v i
  = Raise (out_of_range ("Could not find node " +:+ pretty i)).
Proof.
  intros Hi%N.leb_le. unfold NodeStoreCompact.at_. by rewrite Hi.
Qed.

Lemma dense_at_insert_ne (v : list LatpLon) i j c :
  j ≠ i →
  NodeStoreCompact.at_ (<[N.to_nat i := c]> v) j = NodeStoreCompact.at_ v j.
Proof.
  intros Hne. unfold NodeStoreCompact.at_. rewrite length_insert.
  destruct (N.of_nat (length v) <=? j)%N; [done|].
  rewrite list_lookup_insert_ne by lia. done.
Qed.

End NodeStores.

(** X7. A dense store that has been constructed for [n] nodes holds exactly
    the ids below [n]: each of them reads as the zero pair until it is
    written, every other id is refused with an exception that names it, and
    there are no ways and no relations. The file is at least its initial
    size and the content fits in it. *)
Theorem dense_store_after_construction `{SM : SegmentManager} (fuel : nat)
    (n w : N) (st : OSMStore) :
  OSMStoreImpl fuel (Compact []) n w = (Val tt, st) →
  nodes_size st = N.to_nat n ∧ ways_size st = 0 ∧
  relation_store (mmap_file st) = ∅ ∧
  (∀ i, (i < n)%N → nodes_at st i = Val LatpLon_zero) ∧
  (∀ i, (n ≤ i)%N →
        nodes_at st i
        = Raise (out_of_range ("Could not find node " +:+ pretty i))) ∧
  (init_map_size ≤ file_size st)%N ∧
  (footprint (mmap_file st) ≤ file_size st)%N.
Proof.
  unfold OSMStoreImpl. intros Hrun.
  destruct (perform_atomic_inv _ (reserve_stores_atomic n w) _ _ _ _ Hrun)
    as (st0 & Hgrown & Hst0); [done|].
  pose proof (grown_mmap_file _ _ Hgrown) as Hseg.
  pose proof (grown_file_size _ _ Hgrown) as Hsize.
  unfold reserve_stores in Hst0. rewrite Hseg in Hst0. simpl in Hst0.
  destruct (max_size <? n)%N; [done|].
  apply allocating_inv in Hst0 as [(_ & -> & Hfit)|[? _]]; [|done].
  unfold nodes_size, ways_size, nodes_at, impl_nodes_at.
  simpl. unfold NodeStoreCompact.reserve, NodeStoreCompact.size. simpl.
  rewrite Nat.sub_0_r, take_nil. simpl.
  split; [by rewrite length_replicate|].
  split; [done|]. split; [done|]. split.
  { intros i Hi. apply at_replicate_zero. lia. }
  split.
  { intros i Hi. apply dense_at_out_of_range. rewrite length_replicate. lia. }
  split; [done|].
  revert Hfit. unfold NodeStoreCompact.reserve. simpl.
  by rewrite Nat.sub_0_r, take_nil.
Qed.

Lemma dense_store_after_construction_witness :
  nodes_size (OSMStoreImpl (SM := example_manager) 1 (Compact []) 5 10).2
    = N.to_nat 5 ∧
  nodes_at (OSMStoreImpl (SM := example_manager) 1 (Compact []) 5 10).2 4
    = Val LatpLon_zero ∧
  nodes_at (OSMStoreImpl (SM := example_manager) 1 (Compact []) 5 10).2 5
    = Raise (out_of_range ("Could not find node " +:+ pretty 5%N)).
Proof.
  destruct (dense_store_after_construction
              (SM := example_manager) 1 5 10
              (OSMStoreImpl (SM := example_manager) 1 (Compact []) 5 10).2)
    as (Hsize & _ & _ & Hin & Hout & _).
  { vm_compute. reflexivity. }
  split; [exact Hsize|]. split; [apply Hin|apply Hout]; lia.
Defined.

(** X8. Writing a node of the dense store is done in place: for an id
    within the reservation the call returns at the first attempt, the file
    keeps its size, the id then reads as the coordinates written, every
    other id reads as before, and nothing else in the store changes. A
    second write under the same id replaces the first. *)
Theorem dense_insert_in_place `{SM : SegmentManager} (fuel : nat)
    (st : OSMStore) (v : list LatpLon) (i : N) (c c2 : LatpLon) :
  node_store (mmap_file st) = Compact v → (i < N.of_nat (length v))%N →
  ∃ st',
    nodes_insert_back (S fuel) i c st = (Val tt, st') ∧
    file_size st' = file_size st ∧ map_size st' = map_size st ∧
    nodes_at st' i = Val c ∧
    (∀ j, j ≠ i → nodes_at st' j = nodes_at st j) ∧
    nodes_size st' = nodes_size st ∧
    way_store (mmap_file st') = way_store (mmap_file st) ∧
    relation_store (mmap_file st') = relation_store (mmap_file st) ∧
    ∃ st'',
      nodes_insert_back (S fuel) i c2 st' = (Val tt, st'') ∧
      nodes_at st'' i = Val c2.
Proof.
  intros Hv Hi.
  assert (∀ s u c0, node_store (mmap_file s) = Compact u →
            (i < N.of_nat (length u))%N →
            nodes_insert_back (S fuel) i c0 s
            = (Val tt, set_segment
                         (set_node_store (Compact (<[N.to_nat i := c0]> u))
                                         (mmap_file s)) s)) as Hstep.
  { intros s u c0 Hu Hlt. unfold nodes_insert_back.
    cbn [perform_mmap_operation]. unfold impl_nodes_insert_back. rewrite Hu.
    unfold NodeStoreCompact.insert_back.
    apply N.leb_gt in Hlt. by rewrite Hlt. }
  eexists. split; [by apply Hstep|].
  unfold nodes_at, impl_nodes_at, nodes_size. simpl. rewrite Hv.
  split; [done|]. split; [done|]. split.
  { apply dense_at_lookup, list_lookup_insert_eq. lia. }
  split; [intros j Hj; by apply dense_at_insert_ne|].
  split; [apply length_insert|]. split; [done|]. split; [done|].
  eexists. split.
  { apply Hstep; [done|]. rewrite length_insert. done. }
  simpl. apply dense_at_lookup, list_lookup_insert_eq.
  rewrite length_insert. lia.
Qed.

Lemma dense_insert_in_place_witness :
  ∃ st',
    nodes_insert_back (SM := example_manager) 1 2 (mkLatpLon 5 5)
                      (square_store ∅) = (Val tt, st') ∧
    file_size st' = file_size (square_store ∅) ∧
    nodes_at st' 2 = Val (mkLatpLon 5 5).
Proof.
  destruct (dense_insert_in_place
              (SM := example_manager) 0 (square_store ∅) square_nodes 2
              (mkLatpLon 5 5) (mkLatpLon 6 6))
    as (st' & Hrun & Hsize & _ & Hat & _).
  - reflexivity.
  - vm_compute. reflexivity.
  - exists st'. by repeat split.
Defined.

(** X9. In the hash-map node store an insert that returns has stored the
    coordinates unless the id was there already; every other id is as it
    was; the size goes up by one exactly when the id was new; and a lookup
    fails, with an exception that names the id, exactly for the ids that were
    never inserted. *)
Theorem sparse_insert_lookup `{SM : SegmentManager} (fuel : nat)
    (st st' : OSMStore) (m : gmap N LatpLon) (i : N) (c : LatpLon) :
  node_store (mmap_file st) = Sparse m →
  nodes_insert_back fuel i c st = (Val tt, st') →
  nodes_at st' i = Val (default c (m !! i)) ∧
  (∀ j, j ≠ i → nodes_at st' j = nodes_at st j) ∧
  nodes_size st' = match m !! i with
                   | Some _ => nodes_size st
                   | None => S (nodes_size st)
                   end ∧
  (∀ j, nodes_at st' j
        = Raise (out_of_range ("Could not find node " +:+ pretty j))
        ↔ j ≠ i ∧ m !! j = None).
Proof.
  intros Hm Hrun.
  destruct (perform_atomic_inv _ (impl_nodes_insert_back_atomic i c)
              _ _ _ _ Hrun) as (st0 & Hgrown & Hst0); [done|].
  apply grown_mmap_file in Hgrown.
  unfold impl_nodes_insert_back in Hst0. rewrite Hgrown, Hm in Hst0.
  apply allocating_inv in Hst0 as [(_ & -> & _)|[? _]]; [|done].
  unfold nodes_at, impl_nodes_at, nodes_size. simpl. rewrite Hm.
  unfold NodeStore.at_, NodeStore.insert_back, NodeStore.size.
  destruct (m !! i) as [c0|] eqn:Hi; simpl.
  - rewrite Hi. split; [done|]. split; [done|]. split; [done|].
    intros j. destruct (m !! j) eqn:Hj.
    + split; [done|]. by intros [_ ?].
    + split; [|done]. intros _. split; [|done]. intros ->. congruence.
  - rewrite lookup_insert_eq. split; [done|]. split.
    { intros j Hj. by rewrite lookup_insert_ne. }
    split; [by apply map_size_insert_None|].
    intros j. destruct (decide (j = i)) as [->|Hne].
    + rewrite lookup_insert_eq. split; [done|]. by intros [? _].
    + rewrite lookup_insert_ne by done. destruct (m !! j) eqn:Hj.
      * split; [done|]. by intros [_ ?].
      * by split.
Qed.

Lemma sparse_insert_lookup_witness :
  nodes_at (nodes_insert_back (SM := example_manager) 1 7 (mkLatpLon 5 5)
                              (sparse_store ∅)).2 7
    = Val (default (mkLatpLon 5 5) ((∅ : gmap N LatpLon) !! 7%N)) ∧
  nodes_size (nodes_insert_back (SM := example_manager) 1 7 (mkLatpLon 5 5)
                                (sparse_store ∅)).2 = 1.
Proof.
  destruct (sparse_insert_lookup
              (SM := example_manager) 1 (sparse_store ∅)
              (nodes_insert_back (SM := example_manager) 1 7 (mkLatpLon 5 5)
                                 (sparse_store ∅)).2
              ∅ 7 (mkLatpLon 5 5)) as (Hat & _ & Hsize & _).
  - reflexivity.
  - vm_compute. reflexivity.
  - split; [exact Hat|exact Hsize].
Defined.

(** ** Ways and relations by id and by handle *)

Section WaysAndRelations.

Context `{SM : SegmentManager}.

Lemma perform_allocating_result {A} (target : Segment → Segment) (a a' : A)
    fuel st st' :
  perform_mmap_operation fuel
    (fun st => allocating (target (mmap_file st)) a st) st = (Val a', st') →
  a' = a ∧
  ∃ st0, grown st st0 ∧ st' = set_segment (target (mmap_file st)) st0 ∧
         (footprint (mmap_file st') ≤ file_size st')%N.
Proof.
  intros Hrun.
  destruct (perform_atomic_inv _ (allocating_atomic target a) _ _ _ _ Hrun)
    as (st0 & Hgrown & Hst0); [done|].
  apply allocating_inv in Hst0 as [([= ->] & -> & Hfit)|[? _]]; [|done].
  split; [done|]. exists st0. rewrite (grown_mmap_file _ _ Hgrown) in *.
  by repeat split.
Qed.

End WaysAndRelations.

(** X10. An insert of a way that returns gives the handle of the vector stored
    under the id; a lookup by id then returns the node list, or the one that
    was stored before under that id; every other way is as it was, the size
    goes up by one exactly for a new id, nodes, relations and generated
    geometries are untouched, the file has not shrunk and the content fits
    in it. *)
Theorem way_insert_lookup `{SM : SegmentManager} (fuel : nat) (i : Z)
    (nodeVec : list N) (st st' : OSMStore) (h : handle_t) :
  ways_insert_back fuel i nodeVec st = (Val h, st') →
  h = way_handle i ∧
  ways_at st' i = Val (default nodeVec (way_store (mmap_file st) !! i)) ∧
  retrieve_way st' h = ways_at st' i ∧
  (∀ j, j ≠ i → ways_at st' j = ways_at st j) ∧
  ways_size st' = match way_store (mmap_file st) !! i with
                  | Some _ => ways_size st
                  | None => S (ways_size st)
                  end ∧
  node_store (mmap_file st') = node_store (mmap_file st) ∧
  relation_store (mmap_file st') = relation_store (mmap_file st) ∧
  osm_generated (mmap_file st') = osm_generated (mmap_file st) ∧
  shp_generated (mmap_file st') = shp_generated (mmap_file st) ∧
  (file_size st ≤ file_size st')%N ∧
  (footprint (mmap_file st') ≤ file_size st')%N.
Proof.
  intros Hrun.
  apply (perform_allocating_result
           (fun seg => set_way_store
                         (WayStore.insert_back i nodeVec (way_store seg)).1 seg))
    in Hrun as (-> & st0 & Hgrown & -> & Hfit).
  pose proof (grown_file_size _ _ Hgrown) as Hsize.
  split; [done|]. revert Hfit.
  unfold ways_at, ways_size, retrieve_way, WayStore.at_, WayStore.insert_back,
    WayStore.size. simpl.
  destruct (way_store (mmap_file st) !! i) as [way|] eqn:Hi; simpl; intros Hfit.
  - rewrite Hi. by repeat split.
  - rewrite lookup_insert_eq. repeat split; try done.
    + intros j Hj. by rewrite lookup_insert_ne.
    + by apply map_size_insert_None.
Qed.

Lemma way_insert_lookup_witness :
  ways_at (ways_insert_back (SM := example_manager) 1 100 [1; 2; 3; 4; 1]%N
                            (square_store two_outer_ways)).2 100
    = Val (default [1; 2; 3; 4; 1]%N (two_outer_ways !! 100%Z)) ∧
  ways_size (ways_insert_back (SM := example_manager) 1 100 [1; 2; 3; 4; 1]%N
                              (square_store two_outer_ways)).2 = 3.
Proof.
  destruct (way_insert_lookup
              (SM := example_manager) 1 100 [1; 2; 3; 4; 1]%N
              (square_store two_outer_ways)
              (ways_insert_back (SM := example_manager) 1 100 [1; 2; 3; 4; 1]%N
                                (square_store two_outer_ways)).2
              (way_handle 100)) as (_ & Hat & _ & _ & Hsize & _).
  - vm_compute. reflexivity.
  - split; [exact Hat|exact Hsize].
Defined.

(** X11. An insert of a relation that returns gives a handle that resolves
    to the pair of way lists stored under the id: the pair just given for
    a new id, the pair stored first otherwise, whatever lists the second
    call carries. Ways, nodes and generated geometries are untouched. *)
Theorem relation_insert_retrieve `{SM : SegmentManager} (fuel : nat) (i : Z)
    (outerWayVec innerWayVec : list Z) (st st' : OSMStore) (h : handle_t) :
  relations_insert_front fuel i outerWayVec innerWayVec st = (Val h, st') →
  h = relation_handle i ∧
  retrieve_relation st' h
    = Val (default (outerWayVec, innerWayVec)
                   (relation_store (mmap_file st) !! i)) ∧
  (∀ j, j ≠ i →
        retrieve_relation st' (relation_handle j)
        = retrieve_relation st (relation_handle j)) ∧
  node_store (mmap_file st') = node_store (mmap_file st) ∧
  way_store (mmap_file st') = way_store (mmap_file st) ∧
  osm_generated (mmap_file st') = osm_generated (mmap_file st) ∧
  shp_generated (mmap_file st') = shp_generated (mmap_file st).
Proof.
  intros Hrun.
  apply (perform_allocating_result
           (fun seg => set_relation_store
                         (RelationStore.insert_front
                            i outerWayVec innerWayVec (relation_store seg)).1
                         seg))
    in Hrun as (-> & st0 & Hgrown & -> & _).
  split; [done|].
  unfold retrieve_relation, RelationStore.insert_front. simpl.
  destruct (relation_store (mmap_file st) !! i) as [entry|] eqn:Hi; simpl.
  - rewrite Hi. by repeat split.
  - rewrite lookup_insert_eq. repeat split; try done.
    intros j Hj. by rewrite lookup_insert_ne.
Qed.

Lemma relation_insert_retrieve_witness :
  retrieve_relation
    (relations_insert_front (SM := example_manager) 1 (-1) [200; 201]%Z []
                            (square_store two_outer_ways)).2
    (relation_handle (-1))
  = Val (default ([200; 201]%Z, []) ((∅ : gmap Z (list Z * list Z)) !! (-1)%Z)).
Proof.
  destruct (relation_insert_retrieve
              (SM := example_manager) 1 (-1) [200; 201]%Z []
              (square_store two_outer_ways)
              (relations_insert_front (SM := example_manager) 1 (-1)
                                      [200; 201]%Z []
                                      (square_store two_outer_ways)).2
              (relation_handle (-1))) as (_ & Hret & _).
  - vm_compute. reflexivity.
  - exact Hret.
Defined.

(** X12. For a way inserted under a new id with at least one node,
    [wayIsClosed] on the returned handle says whether the first node is the
    last one, as [isClosed] does on the node list itself. *)
Theorem inserted_way_is_closed_iff `{SM : SegmentManager} (fuel : nat) (i : Z)
    (nodeVec : list N) (st st' : OSMStore) (h : handle_t) :
  way_store (mmap_file st) !! i = None → nodeVec ≠ [] →
  ways_insert_back fuel i nodeVec st = (Val h, st') →
  wayIsClosed st' h = isClosed nodeVec ∧
  (wayIsClosed st' h = Val true ↔ head nodeVec = last nodeVec).
Proof.
  intros Hfresh Hne Hrun.
  apply (perform_allocating_result
           (fun seg => set_way_store
                         (WayStore.insert_back i nodeVec (way_store seg)).1 seg))
    in Hrun as (-> & st0 & _ & -> & _).
  unfold wayIsClosed, retrieve_way, WayStore.at_, WayStore.insert_back.
  simpl. rewrite Hfresh. simpl. rewrite lookup_insert_eq. simpl.
  destruct nodeVec as [|n nodeVec]; [done|]. split; [done|].
  unfold front, back. simpl head.
  destruct (last (n :: nodeVec)) as [b|] eqn:Hlast;
    [|by apply last_None in Hlast].
  simpl. split.
  - intros [= Heq%N.eqb_eq]. by subst.
  - intros [= ->]. by rewrite N.eqb_refl.
Qed.

Lemma inserted_way_is_closed_iff_witness :
  wayIsClosed (ways_insert_back (SM := example_manager) 1 100 [1; 2; 3; 4; 1]%N
                                (square_store ∅)).2 (way_handle 100)
    = isClosed [1; 2; 3; 4; 1]%N ∧
  (wayIsClosed (ways_insert_back (SM := example_manager) 1 100 [1; 2; 3; 4; 1]%N
                                 (square_store ∅)).2 (way_handle 100)
     = Val true ↔ head [1; 2; 3; 4; 1]%N = last [1; 2; 3; 4; 1]%N).
Proof.
  apply (inserted_way_is_closed_iff
           (SM := example_manager) 1 100 [1; 2; 3; 4; 1]%N (square_store ∅)).
  - reflexivity.
  - discriminate.
  - vm_compute. reflexivity.
Defined.

(** ** Geometries from ways, and a node that cannot be found *)

Lemma fillPoints_app st nodes1 nodes2 : ∀ acc,
  fillPoints st acc (nodes1 ++ nodes2)
  = fillPoints st acc nodes1 ≫= fun pts => fillPoints st pts nodes2.
Proof.
  induction nodes1 as [|n nodes1 IH]; intros acc; [done|].
  cbn [app fillPoints]. destruct (nodes_at st n); simpl; done.
Qed.

(** X13. A way with a node that cannot be looked up has no partial
    geometry: when the nodes before it are found, the linestring and the
    polygon of the way both end with the exception of that lookup. *)
Theorem geometry_of_missing_node `{BG : BoostGeometry} (st : OSMStore)
    (h : handle_t) (before after : list N) (n : N) (e : exn) :
  retrieve_way st h = Val (before ++ n :: after) →
  (∀ m, m ∈ before → ∃ ll, nodes_at st m = Val ll) →
  nodes_at st n = Raise e →
  nodeListLinestring st h = Raise e ∧ nodeListPolygon st h = Raise e.
Proof.
  intros Hway Hbefore Hn.
  assert (fillPoints st [] (before ++ n :: after) = Raise e) as Hfill.
  { rewrite fillPoints_app.
    destruct (fillPoints_spec st before [] Hbefore) as (lls & _ & ->).
    cbn [mbind result_bind fillPoints]. by rewrite Hn. }
  unfold nodeListLinestring, nodeListPolygon. rewrite Hway. simpl.
  by rewrite Hfill.
Qed.

Lemma geometry_of_missing_node_witness :
  nodeListLinestring
    (mkOSMStore (mkSegment (Sparse {[ 1%N := mkLatpLon 0 0 ]})
                           {[ 5%Z := [1; 9; 1]%N ]} ∅
                           no_geometries no_geometries) 16 16)
    (way_handle 5)
  = Raise (out_of_range ("Could not find node " +:+ pretty 9%N)).
Proof.
  apply (geometry_of_missing_node
           (BG := example_geometry)
           (mkOSMStore (mkSegment (Sparse {[ 1%N := mkLatpLon 0 0 ]})
                                  {[ 5%Z := [1; 9; 1]%N ]} ∅
                                  no_geometries no_geometries) 16 16)
           (way_handle 5) [1]%N [1]%N 9%N).
  - reflexivity.
  - intros m Hm. apply list_elem_of_singleton in Hm as ->.
    eexists. reflexivity.
  - reflexivity.
Defined.

(** ** Generated geometries *)

Section Generated.

Context `{SM : SegmentManager}.

Lemma get_set_generated g v seg : get_generated g (set_generated g v seg) = v.
Proof. by destruct g. Qed.

Lemma get_set_generated_ne g g' v seg :
  g ≠ g' → get_generated g' (set_generated g v seg) = get_generated g' seg.
Proof. by destruct g, g'. Qed.

Lemma lookup_last_snoc {A} (l : list A) x :
  (l ++ [x]) !! (length (l ++ [x]) - 1) = Some x.
Proof.
  rewrite length_app. simpl. replace (length l + 1 - 1) with (length l) by lia.
  apply list_lookup_middle. done.
Qed.

Lemma and_then_Val {A B} (r : result A * OSMStore)
    (k : A → OSMStore → result B * OSMStore) b st' :
  and_then r k = (Val b, st') → ∃ a st1, r = (Val a, st1) ∧ k a st1 = (Val b, st').
Proof. destruct r as [[a| | |] st1]; simpl; try done. eauto. Qed.

Lemma copy_polygons (src : list Polygon) :
  map (fun polygon => mkPolygon (outer polygon) (inners polygon)) src = src.
Proof. induction src as [|[o n] src IH]; [done|]. simpl. by rewrite IH. Qed.

End Generated.

(** X14. A point that has been stored is read back through its handle, and
    storing it leaves every point stored before where it was: the deque
    grows by exactly this one point, and the other slot and the entity
    stores are untouched. *)
Theorem store_point_retrieve `{SM : SegmentManager} (fuel : nat) (g : which)
    (input : float * float) (st st' : OSMStore) (h : handle_t) :
  store_point fuel g input st = (Val h, st') →
  retrieve_point st' h = Val input ∧
  (∀ h0 p0, retrieve_point st h0 = Val p0 → retrieve_point st' h0 = Val p0) ∧
  points_store (get_generated g (mmap_file st'))
    = points_store (get_generated g (mmap_file st)) ++ [input] ∧
  node_store (mmap_file st') = node_store (mmap_file st) ∧
  way_store (mmap_file st') = way_store (mmap_file st) ∧
  relation_store (mmap_file st') = relation_store (mmap_file st).
Proof.
  unfold store_point. intros Hrun.
  apply and_then_Val in Hrun as ([] & st1 & Hloop & [= <- <-]).
  apply (perform_allocating_result
           (fun seg =>
              set_generated g
                (mkGenerated (points_store (get_generated g seg) ++ [input])
                             (linestring_store (get_generated g seg))
                             (multi_polygon_store (get_generated g seg)))
                seg))
    in Hloop as (_ & st0 & _ & -> & _).
  unfold retrieve_point. simpl. rewrite get_set_generated. simpl.
  split; [by rewrite lookup_last_snoc|]. split.
  { intros [| |g0 k| |] p0; try done.
    destruct (decide (g = g0)) as [<-|Hne].
    - rewrite get_set_generated. simpl.
      destruct (points_store (get_generated g (mmap_file st)) !! k) eqn:Hk;
        [|done].
      intros [= ->]. by rewrite (lookup_app_l_Some _ _ _ _ Hk).
    - by rewrite get_set_generated_ne. }
  split; [done|]. by destruct g.
Qed.

Lemma store_point_retrieve_witness :
  retrieve_point
    (store_point (SM := example_manager) 1 osm (1%float, 2%float)
                 (square_store ∅)).2
    (point_handle osm 0)
  = Val (1%float, 2%float).
Proof.
  destruct (store_point_retrieve
              (SM := example_manager) 1 osm (1%float, 2%float) (square_store ∅)
              (store_point (SM := example_manager) 1 osm (1%float, 2%float)
                           (square_store ∅)).2
              (point_handle osm 0)) as (Hret & _).
  - vm_compute. reflexivity.
  - exact Hret.
Defined.

(** X15. A multipolygon that has been stored is read back through its handle
    as it was given, polygon by polygon and ring by ring; the multipolygons
    stored before stay where they were and the deque grows by exactly
    one. *)
Theorem store_multi_polygon_retrieve `{SM : SegmentManager} (fuel : nat)
    (g : which) (src : list Polygon) (st st' : OSMStore) (h : handle_t) :
  store_multi_polygon fuel g src st = (Val h, st') →
  retrieve_multi_polygon st' h = Val src ∧
  (∀ h0 mp0, retrieve_multi_polygon st h0 = Val mp0 →
             retrieve_multi_polygon st' h0 = Val mp0) ∧
  multi_polygon_store (get_generated g (mmap_file st'))
    = multi_polygon_store (get_generated g (mmap_file st)) ++ [src].
Proof.
  unfold store_multi_polygon. intros Hrun.
  apply and_then_Val in Hrun as ([] & st1 & Hloop & [= <- <-]).
  rewrite copy_polygons in Hloop.
  apply (perform_allocating_result
           (fun seg =>
              set_generated g
                (mkGenerated (points_store (get_generated g seg))
                             (linestring_store (get_generated g seg))
                             (multi_polygon_store (get_generated g seg) ++ [src]))
                seg))
    in Hloop as (_ & st0 & _ & -> & _).
  unfold retrieve_multi_polygon. simpl. rewrite get_set_generated. simpl.
  split; [by rewrite lookup_last_snoc|]. split; [|done].
  intros [| | | |g0 k] mp0; try done.
  destruct (decide (g = g0)) as [<-|Hne].
  - rewrite get_set_generated. simpl.
    destruct (multi_polygon_store (get_generated g (mmap_file st)) !! k)
      eqn:Hk; [|done].
    intros [= ->]. by rewrite (lookup_app_l_Some _ _ _ _ Hk).
  - by rewrite get_set_generated_ne.
Qed.

Lemma store_multi_polygon_retrieve_witness :
  retrieve_multi_polygon
    (store_multi_polygon (SM := example_manager) 1 shp
       [mkPolygon [(0%float, 0%float); (1%float, 0%float); (0%float, 0%float)] []]
       (square_store ∅)).2
    (multi_polygon_handle shp 0)
  = Val [mkPolygon [(0%float, 0%float); (1%float, 0%float); (0%float, 0%float)]
                   []].
Proof.
  destruct (store_multi_polygon_retrieve
              (SM := example_manager) 1 shp
              [mkPolygon [(0%float, 0%float); (1%float, 0%float);
                          (0%float, 0%float)] []]
              (square_store ∅)
              (store_multi_polygon (SM := example_manager) 1 shp
                 [mkPolygon [(0%float, 0%float); (1%float, 0%float);
                             (0%float, 0%float)] []]
                 (square_store ∅)).2
              (multi_polygon_handle shp 0)) as (Hret & _).
  - vm_compute. reflexivity.
  - exact Hret.
Defined.

Section Linestrings.

Context `{SM : SegmentManager}.

Lemma set_get_generated g seg : set_generated g (get_generated g seg) seg = seg.
Proof. by destruct seg, g. Qed.

Lemma set_set_generated g v v0 seg :
  set_generated g v (set_generated g v0 seg) = set_generated g v seg.
Proof. by destruct g. Qed.

Lemma assign_back_snoc {A} (l : list A) x v : assign_back v (l ++ [x]) = l ++ [v].
Proof.
  unfold assign_back. rewrite length_app. simpl.
  replace (length l + 1 - 1) with (length l + 0) by lia.
  by rewrite insert_app_r.
Qed.

(** The loop of [store_linestring], entered when [k] empty linestrings
    have been left behind by attempts that ran out of space half way. *)
Lemma store_linestring_loop g src seg0 pts0 ls0 mps0 : ∀ fuel s s' k,
  mmap_file s
    = set_generated g (mkGenerated pts0 (ls0 ++ replicate k []) mps0) seg0 →
  perform_mmap_operation fuel
    (fun st =>
       let gen := get_generated g (mmap_file st) in
       and_then
         (allocating
            (set_generated g
               (mkGenerated (points_store gen) (linestring_store gen ++ [[]])
                            (multi_polygon_store gen))
               (mmap_file st)) tt st)
         (fun _ st =>
            let gen := get_generated g (mmap_file st) in
            allocating
              (set_generated g
                 (mkGenerated (points_store gen)
                              (assign_back src (linestring_store gen))
                              (multi_polygon_store gen))
                 (mmap_file st)) tt st))
    s = (Val tt, s') →
  ∃ k',
    mmap_file s'
    = set_generated g (mkGenerated pts0 (ls0 ++ replicate k' [] ++ [src]) mps0)
                    seg0.
Proof.
  induction fuel as [|fuel IH]; intros s s' k Hs; [done|].
  cbn [perform_mmap_operation]. cbv zeta. rewrite Hs.
  rewrite get_set_generated, set_set_generated. simpl.
  unfold allocating at 1.
  destruct (footprint _ <=? file_size s)%N.
  - cbn [and_then set_segment mmap_file]. rewrite get_set_generated.
    rewrite set_set_generated. simpl. rewrite assign_back_snoc.
    unfold allocating at 1. simpl.
    destruct (footprint _ <=? file_size s)%N.
    + intros [= <-]. exists k. simpl. by rewrite <- app_assoc.
    + intros Hrun. apply (IH _ _ (S k)) in Hrun; [done|].
      unfold reopen, grow, set_segment. cbn [mmap_file].
      by rewrite replicate_S_end, app_assoc.
  - simpl. intros Hrun. by apply (IH _ _ k) in Hrun.
Qed.

End Linestrings.

(** X16. A linestring that has been stored is read back through its handle,
    and the linestrings stored before stay where they were. The deque may
    grow by more than one: an attempt that runs out of space between the
    resize and the assignment leaves the element it added behind, and the
    handle is that of the last element, which holds the linestring given. *)
Theorem store_linestring_retrieve `{SM : SegmentManager} (fuel : nat)
    (g : which) (src : list (float * float)) (st st' : OSMStore)
    (h : handle_t) :
  store_linestring fuel g src st = (Val h, st') →
  retrieve_linestring st' h = Val src ∧
  (∀ h0 ls0, retrieve_linestring st h0 = Val ls0 →
             retrieve_linestring st' h0 = Val ls0) ∧
  ∃ left_behind,
    mmap_file st'
    = set_generated g
        (mkGenerated
           (points_store (get_generated g (mmap_file st)))
           (linestring_store (get_generated g (mmap_file st))
              ++ left_behind ++ [src])
           (multi_polygon_store (get_generated g (mmap_file st))))
        (mmap_file st).
Proof.
  unfold store_linestring. intros Hrun.
  apply and_then_Val in Hrun as ([] & st1 & Hloop & [= <- <-]).
  apply (store_linestring_loop g src (mmap_file st)
           (points_store (get_generated g (mmap_file st)))
           (linestring_store (get_generated g (mmap_file st)))
           (multi_polygon_store (get_generated g (mmap_file st)))
           fuel st st1 0) in Hloop as [k Hseg].
  2:{ simpl. rewrite app_nil_r.
      destruct (get_generated g (mmap_file st)) eqn:Hgen. simpl.
      by rewrite <- Hgen, set_get_generated. }
  split; [|split; [|by exists (replicate k [])]].
  - unfold retrieve_linestring. rewrite Hseg, get_set_generated. simpl.
    rewrite !app_assoc. by rewrite lookup_last_snoc.
  - intros [| | |g0 k0|] l0; try done. unfold retrieve_linestring.
    rewrite Hseg. destruct (decide (g = g0)) as [<-|Hne].
    + rewrite get_set_generated. simpl.
      destruct (linestring_store (get_generated g (mmap_file st)) !! k0)
        eqn:Hk; [|done].
      intros [= ->]. by rewrite (lookup_app_l_Some _ _ _ _ Hk).
    + by rewrite get_set_generated_ne.
Qed.

Lemma store_linestring_retrieve_witness :
  retrieve_linestring
    (store_linestring (SM := point_counting_manager) 2 osm
                      [(0%float, 0%float); (1%float, 1%float)] tiny_store).2
    (linestring_handle osm 1)
  = Val [(0%float, 0%float); (1%float, 1%float)] ∧
  linestring_store
    (osm_generated
       (mmap_file
          (store_linestring (SM := point_counting_manager) 2 osm
                            [(0%float, 0%float); (1%float, 1%float)]
                            tiny_store).2))
  = [[]; [(0%float, 0%float); (1%float, 1%float)]].
Proof.
  split; [|vm_compute; reflexivity].
  destruct (store_linestring_retrieve
              (SM := point_counting_manager) 2 osm
              [(0%float, 0%float); (1%float, 1%float)] tiny_store
              (store_linestring (SM := point_counting_manager) 2 osm
                                [(0%float, 0%float); (1%float, 1%float)]
                                tiny_store).2
              (linestring_handle osm 1)) as (Hret & _).
  - vm_compute. reflexivity.
  - exact Hret.
Defined.

(** ** Handles stay valid across mutations *)

Section Handles.

Context `{SM : SegmentManager}.

Lemma extends_refl st : extends st st.
Proof. split; [done|]. split; [done|]. by intros g. Qed.

Lemma extends_trans st1 st2 st3 :
  extends st1 st2 → extends st2 st3 → extends st1 st3.
Proof.
  intros (Hw12 & Hr12 & Hg12) (Hw23 & Hr23 & Hg23).
  split; [by etrans|]. split; [by etrans|]. intros g.
  destruct (Hg12 g) as (? & ? & ?), (Hg23 g) as (? & ? & ?).
  repeat split; by etrans.
Qed.

Lemma extends_segment st st' :
  mmap_file st' = mmap_file st → extends st st'.
Proof.
  intros Hseg. unfold extends. rewrite Hseg. apply extends_refl.
Qed.

Lemma extends_generated g v st s :
  way_store (mmap_file s) = way_store (mmap_file st) →
  relation_store (mmap_file s) = relation_store (mmap_file st) →
  get_generated (match g with osm => shp | shp => osm end) (mmap_file s)
    = get_generated (match g with osm => shp | shp => osm end) (mmap_file st) →
  points_store (get_generated g (mmap_file st)) `prefix_of` points_store v →
  linestring_store (get_generated g (mmap_file st))
    `prefix_of` linestring_store v →
  multi_polygon_store (get_generated g (mmap_file st))
    `prefix_of` multi_polygon_store v →
  get_generated g (mmap_file s) = v →
  extends st s.
Proof.
  intros Hw Hr Hother Hp Hl Hm Hv. unfold extends. rewrite Hw, Hr.
  split; [done|]. split; [done|]. intros g'.
  destruct g, g'; simpl in *; rewrite ?Hv, ?Hother; done.
Qed.

Lemma perform_extends {A} (func : OSMStore → result A * OSMStore) fuel :
  step_extends func → step_extends (perform_mmap_operation fuel func).
Proof.
  intros Hfunc st r st' Hrun.
  refine (perform_preserves (extends st) func _ _ fuel st r st'
            (extends_refl st) Hrun).
  - intros s Hs. eapply extends_trans; [done|]. by apply extends_segment.
  - intros s r1 s1 Hs Hf. eapply extends_trans; [done|]. by eapply Hfunc.
Qed.

Lemma allocating_extends {A} (target : Segment → Segment) (a : A) :
  (∀ s, extends s (set_segment (target (mmap_file s)) s)) →
  step_extends (fun st => allocating (target (mmap_file st)) a st).
Proof.
  intros Htarget s r s' Hrun.
  apply allocating_inv in Hrun as [(_ & -> & _)|[_ ->]];
    [apply Htarget|apply extends_refl].
Qed.

Lemma way_insert_subseteq i nodeVec (m : gmap Z (list N)) :
  m ⊆ (WayStore.insert_back i nodeVec m).1.
Proof.
  unfold WayStore.insert_back. destruct (m !! i) eqn:Hi; simpl; [done|].
  by apply insert_subseteq.
Qed.

Lemma relation_insert_subseteq i o n (m : gmap Z (list Z * list Z)) :
  m ⊆ (RelationStore.insert_front i o n m).1.
Proof.
  unfold RelationStore.insert_front. destruct (m !! i) eqn:Hi; simpl; [done|].
  by apply insert_subseteq.
Qed.

Lemma extends_set_generated g v s :
  points_store (get_generated g (mmap_file s)) `prefix_of` points_store v →
  linestring_store (get_generated g (mmap_file s))
    `prefix_of` linestring_store v →
  multi_polygon_store (get_generated g (mmap_file s))
    `prefix_of` multi_polygon_store v →
  extends s (set_segment (set_generated g v (mmap_file s)) s).
Proof.
  intros Hp Hl Hm. apply (extends_generated g v); try done.
  - by destruct g.
  - by destruct g.
  - by destruct g.
  - simpl. apply get_set_generated.
Qed.

Lemma discard_state {A} (r : result A * OSMStore) r' st' :
  discard r = (r', st') → st' = r.2.
Proof. unfold discard. by apply and_then_state. Qed.

Lemma apply_mutation_extends fuel op : step_extends (apply_mutation fuel op).
Proof.
  intros st r st' Hrun.
  destruct op as [i coord|i nodeVec|i o n|g input|g src|g src];
    cbn [apply_mutation] in Hrun.
  - revert Hrun. apply perform_extends. intros s r1 s1.
    unfold impl_nodes_insert_back.
    destruct (node_store (mmap_file s)) as [v|m].
    + destruct (NodeStoreCompact.insert_back i coord v);
        intros [= <- <-]; try apply extends_refl.
      split; [done|]. split; [done|]. by intros g.
    + intros Hstep. apply allocating_inv in Hstep as [(_ & -> & _)|[_ ->]];
        [|apply extends_refl].
      split; [done|]. split; [done|]. by intros g.
  - apply discard_state in Hrun as ->.
    destruct (ways_insert_back fuel i nodeVec st) as [r1 s1] eqn:Hp.
    revert Hp. apply perform_extends.
    apply (allocating_extends
             (fun seg => set_way_store
                           (WayStore.insert_back i nodeVec (way_store seg)).1
                           seg)).
    intros s. split; [apply way_insert_subseteq|]. split; [done|]. by intros g.
  - apply discard_state in Hrun as ->.
    destruct (relations_insert_front fuel i o n st) as [r1 s1] eqn:Hp.
    revert Hp. apply perform_extends.
    apply (allocating_extends
             (fun seg => set_relation_store
                           (RelationStore.insert_front
                              i o n (relation_store seg)).1 seg)).
    intros s. split; [done|]. split; [apply relation_insert_subseteq|].
    by intros g.
  - apply discard_state in Hrun as ->. unfold store_point.
    destruct (perform_mmap_operation fuel _ st) as [r1 s1] eqn:Hp.
    assert (extends st s1) as Hext.
    { revert Hp. apply perform_extends.
      apply (allocating_extends
               (fun seg =>
                  set_generated g
                    (mkGenerated
                       (points_store (get_generated g seg) ++ [input])
                       (linestring_store (get_generated g seg))
                       (multi_polygon_store (get_generated g seg)))
                    seg)).
      intros s. apply extends_set_generated; simpl; try done.
      by apply prefix_app_r. }
    by destruct r1.
  - apply discard_state in Hrun as ->. unfold store_linestring.
    destruct (perform_mmap_operation fuel _ st) as [r1 s1] eqn:Hp.
    assert (extends st s1) as Hext.
    { revert Hp. apply perform_extends. intros s r2 s2. cbv zeta.
      unfold allocating at 1.
      destruct (footprint _ <=? file_size s)%N;
        [|intros [= <- <-]; apply extends_refl].
      cbn [and_then set_segment mmap_file].
      rewrite get_set_generated, set_set_generated. simpl.
      rewrite assign_back_snoc. intros Hstep.
      apply allocating_inv in Hstep as [(_ & -> & _)|[_ ->]].
      - apply (extends_generated g
                 (mkGenerated
                    (points_store (get_generated g (mmap_file s)))
                    (linestring_store (get_generated g (mmap_file s)) ++ [src])
                    (multi_polygon_store (get_generated g (mmap_file s)))));
          simpl; try (by destruct g); try done;
          first [by apply prefix_app_r | apply get_set_generated].
      - apply (extends_set_generated g); simpl; try done;
          by apply prefix_app_r. }
    by destruct r1.
  - apply discard_state in Hrun as ->. unfold store_multi_polygon.
    destruct (perform_mmap_operation fuel _ st) as [r1 s1] eqn:Hp.
    assert (extends st s1) as Hext.
    { revert Hp. apply perform_extends. rewrite copy_polygons.
      apply (allocating_extends
               (fun seg =>
                  set_generated g
                    (mkGenerated
                       (points_store (get_generated g seg))
                       (linestring_store (get_generated g seg))
                       (multi_polygon_store (get_generated g seg) ++ [src]))
                    seg)).
      intros s. apply extends_set_generated; simpl; try done.
      by apply prefix_app_r. }
    by destruct r1.
Qed.

Lemma run_mutations_extends fuel ops : ∀ st st',
  run_mutations fuel ops st = Some st' → extends st st'.
Proof.
  induction ops as [|op ops IH]; intros st st'; simpl.
  { intros [= <-]. apply extends_refl. }
  destruct (apply_mutation fuel op st) as [r s1] eqn:Hop.
  apply apply_mutation_extends in Hop.
  destruct r; try done; intros Hrun; eapply extends_trans; eauto.
Qed.

End Handles.

(** X17. Whatever mutations follow, arena growth and failed calls included, a
    handle keeps designating the value it was given for: way and relation
    handles, and the handles of stored points, linestrings and multipolygons,
    resolve after the mutations to what they resolved to before. *)
Theorem handles_survive_mutations `{SM : SegmentManager} (fuel : nat)
    (ops : list mutation) (st st' : OSMStore) (h : handle_t) :
  run_mutations fuel ops st = Some st' →
  (∀ way, retrieve_way st h = Val way → retrieve_way st' h = Val way) ∧
  (∀ rel, retrieve_relation st h = Val rel → retrieve_relation st' h = Val rel) ∧
  (∀ p, retrieve_point st h = Val p → retrieve_point st' h = Val p) ∧
  (∀ ls, retrieve_linestring st h = Val ls → retrieve_linestring st' h = Val ls) ∧
  (∀ mp, retrieve_multi_polygon st h = Val mp →
         retrieve_multi_polygon st' h = Val mp).
Proof.
  intros Hrun. apply run_mutations_extends in Hrun as (Hw & Hr & Hg).
  unfold retrieve_way, retrieve_relation, retrieve_point, retrieve_linestring,
    retrieve_multi_polygon.
  destruct h as [i|i|g k|g k|g k]; repeat split; try done.
  - intros way. destruct (way_store (mmap_file st) !! i) eqn:Hi; [|done].
    intros [= ->]. by rewrite (lookup_weaken _ _ _ _ Hi Hw).
  - intros rel. destruct (relation_store (mmap_file st) !! i) eqn:Hi; [|done].
    intros [= ->]. by rewrite (lookup_weaken _ _ _ _ Hi Hr).
  - intros p. destruct (Hg g) as (Hp & _ & _).
    destruct (points_store (get_generated g (mmap_file st)) !! k) eqn:Hk; [|done].
    intros [= ->]. by rewrite (prefix_lookup_Some _ _ _ _ Hk Hp).
  - intros ls. destruct (Hg g) as (_ & Hl & _).
    destruct (linestring_store (get_generated g (mmap_file st)) !! k) eqn:Hk;
      [|done].
    intros [= ->]. by rewrite (prefix_lookup_Some _ _ _ _ Hk Hl).
  - intros mp. destruct (Hg g) as (_ & _ & Hm).
    destruct (multi_polygon_store (get_generated g (mmap_file st)) !! k) eqn:Hk;
      [|done].
    intros [= ->]. by rewrite (prefix_lookup_Some _ _ _ _ Hk Hm).
Qed.

Lemma handles_survive_mutations_witness :
  retrieve_way
    (default tiny_store
       (run_mutations (SM := example_manager) 4
          [insert_way 200 [9; 9]%N; insert_node 7 (mkLatpLon 1 1);
           do_store_point osm (1%float, 1%float)]
          (square_store two_outer_ways)))
    (way_handle 200)
  = Val [1; 2; 3]%N.
Proof.
  assert (run_mutations (SM := example_manager) 4
            [insert_way 200 [9; 9]%N; insert_node 7 (mkLatpLon 1 1);
             do_store_point osm (1%float, 1%float)]
            (square_store two_outer_ways)
          = Some (default tiny_store
                    (run_mutations (SM := example_manager) 4
                       [insert_way 200 [9; 9]%N; insert_node 7 (mkLatpLon 1 1);
                        do_store_point osm (1%float, 1%float)]
                       (square_store two_outer_ways)))) as Hrun
    by (vm_compute; reflexivity).
  apply (proj1 (handles_survive_mutations
                  (SM := example_manager) _ _ _ _ (way_handle 200) Hrun)).
  reflexivity.
Defined.

(** ** How far the file grows *)

Section Growth.

Context `{SM : SegmentManager}.

Lemma grow_times_succ k st :
  grow_times (S k) st = grow_times k (reopen (grow st)).
Proof.
  unfold grow_times. set (f := fun s => reopen (grow s)).
  induction k as [|k IH]; [done|].
  change (f (Nat.iter (S k) f st) = f (Nat.iter k f (f st))). by rewrite IH.
Qed.

Lemma grow_times_mmap_file k st : mmap_file (grow_times k st) = mmap_file st.
Proof. induction k as [|k IH]; [done|]. simpl. apply IH. Qed.

Lemma grow_times_doubles k : ∀ st,
  file_size st = map_size st →
  (file_size st * 2 ^ N.of_nat k < size_t_modulus)%N →
  file_size (grow_times k st) = (file_size st * 2 ^ N.of_nat k)%N ∧
  map_size (grow_times k st) = (file_size st * 2 ^ N.of_nat k)%N.
Proof.
  induction k as [|k IH]; intros st Heq Hsmall.
  { simpl. rewrite N.mul_1_r. by split. }
  rewrite grow_times_succ.
  replace (N.of_nat (S k)) with (N.succ (N.of_nat k)) in * by lia.
  rewrite N.pow_succ_r' in *.
  assert (1 ≤ 2 ^ N.of_nat k)%N as Hpow.
  { pose proof (N.pow_nonzero 2 (N.of_nat k)). lia. }
  assert (map_size st * 2 < size_t_modulus)%N as Hmod by nia.
  destruct (IH (reopen (grow st))) as [Hf Hm].
  - unfold reopen, grow. simpl. rewrite N.mod_small by done. lia.
  - unfold reopen, grow. simpl. rewrite <- Heq. lia.
  - rewrite Hf, Hm. unfold reopen, grow. simpl. rewrite <- Heq. lia.
Qed.

Lemma perform_allocating_minimal {A} (target : Segment → Segment) (a a' : A) :
  ∀ fuel st st',
    perform_mmap_operation fuel
      (fun st => allocating (target (mmap_file st)) a st) st = (Val a', st') →
    ∃ k, k < fuel ∧
         st' = set_segment (target (mmap_file st)) (grow_times k st) ∧
         (footprint (target (mmap_file st)) ≤ file_size (grow_times k st))%N ∧
         ∀ j, j < k →
              (file_size (grow_times j st) < footprint (target (mmap_file st)))%N.
Proof.
  induction fuel as [|fuel IH]; intros st st'; [done|].
  cbn [perform_mmap_operation]. unfold allocating at 1.
  destruct (footprint (target (mmap_file st)) <=? file_size st)%N eqn:Hfit.
  - intros [= _ <-]. exists 0. split; [lia|]. split; [done|].
    split; [by apply N.leb_le|]. intros j Hj. lia.
  - intros Hrun. apply IH in Hrun as (k & Hk & -> & Hle & Hmin).
    exists (S k). rewrite grow_times_succ. split; [lia|].
    split; [done|]. split; [done|]. intros [|j] Hj.
    + simpl. by apply N.leb_gt.
    + rewrite grow_times_succ. apply Hmin. lia.
Qed.

End Growth.

(** X18. The retry loop grows the file no further than the allocation
    needs: when an allocating operation returns, it has grown the file some
    [k] times, fewer than the attempts it was given; the content fits after
    the [k]-th growth and did not fit after any of the earlier ones. As long
    as [map_size] follows the size of the file and does not wrap, [k]
    growths multiply the size of the file by two to the [k]. *)
Theorem growth_is_minimal `{SM : SegmentManager} {A : Type}
    (target : Segment → Segment) (a a' : A) (fuel : nat) (st st' : OSMStore) :
  perform_mmap_operation fuel
    (fun st => allocating (target (mmap_file st)) a st) st = (Val a', st') →
  ∃ k,
    k < fuel ∧
    st' = set_segment (target (mmap_file st)) (grow_times k st) ∧
    (footprint (target (mmap_file st)) ≤ file_size (grow_times k st))%N ∧
    (∀ j, j < k →
          (file_size (grow_times j st) < footprint (target (mmap_file st)))%N) ∧
    (file_size st = map_size st →
     (file_size st * 2 ^ N.of_nat k < size_t_modulus)%N →
     file_size st' = (file_size st * 2 ^ N.of_nat k)%N ∧
     map_size st' = (file_size st * 2 ^ N.of_nat k)%N).
Proof.
  intros Hrun.
  apply perform_allocating_minimal in Hrun as (k & Hk & -> & Hle & Hmin).
  exists k. repeat split; try done; simpl; by apply grow_times_doubles.
Qed.

Lemma growth_is_minimal_witness :
  ∃ k,
    k < 3 ∧
    (ways_insert_back (SM := example_manager) 3 5 [1; 2]%N tiny_store).2
    = set_segment
        (set_way_store
           (WayStore.insert_back 5 [1; 2]%N (way_store (mmap_file tiny_store))).1
           (mmap_file tiny_store))
        (grow_times k tiny_store) ∧
    (∀ j, j < k →
          (file_size (grow_times j tiny_store)
           < footprint (SegmentManager := example_manager)
               (set_way_store
                  (WayStore.insert_back 5 [1; 2]%N
                                        (way_store (mmap_file tiny_store))).1
                  (mmap_file tiny_store)))%N).
Proof.
  destruct (growth_is_minimal
              (SM := example_manager)
              (fun seg => set_way_store
                            (WayStore.insert_back 5 [1; 2]%N (way_store seg)).1
                            seg)
              (way_handle 5) (way_handle 5) 3 tiny_store
              (ways_insert_back (SM := example_manager) 3 5 [1; 2]%N
                                tiny_store).2)
    as (k & Hk & Hst & _ & Hmin & _).
  - vm_compute. reflexivity.
  - exists k. split; [exact Hk|]. split; [exact Hst|exact Hmin].
Defined.

Section Sizes.

Context `{SM : SegmentManager}.

Lemma grow_times_sizes k s t :
  file_size s = file_size t → map_size s = map_size t →
  file_size (grow_times k s) = file_size (grow_times k t) ∧
  map_size (grow_times k s) = map_size (grow_times k t).
Proof.
  intros Hf Hm. induction k as [|k [IHf IHm]]; [done|].
  simpl. unfold reopen, grow. simpl. by rewrite IHf, IHm.
Qed.

Lemma grow_times_file_size_le k st :
  (file_size st ≤ file_size (grow_times k st))%N.
Proof.
  induction k as [|k IH]; [done|]. simpl. unfold reopen, grow. simpl. lia.
Qed.

Lemma perform_sizes {A} (func : OSMStore → result A * OSMStore) :
  keeps_sizes func →
  ∀ fuel st r st',
    perform_mmap_operation fuel func st = (r, st') →
    ∃ k, file_size st' = file_size (grow_times k st) ∧
         map_size st' = map_size (grow_times k st).
Proof.
  intros Hfunc. induction fuel as [|fuel IH]; intros st r st'; simpl.
  { intros [= _ <-]. by exists 0. }
  destruct (func st) as [r1 s1] eqn:Hf.
  destruct (Hfunc _ _ _ Hf) as [Hfs Hms].
  destruct r1 as [a|[|what]| |];
    try (intros [= _ <-]; exists 0; by split).
  intros Hrun. apply IH in Hrun as (k & -> & ->).
  exists (S k). rewrite grow_times_succ.
  apply grow_times_sizes; unfold reopen, grow; simpl; by rewrite ?Hfs, ?Hms.
Qed.

Lemma allocating_keeps_sizes {A} (target : OSMStore → Segment) (a : A) :
  keeps_sizes (fun st => allocating (target st) a st).
Proof.
  intros s r s' Hrun. by apply allocating_inv in Hrun as [(_ & -> & _)|[_ ->]].
Qed.

Lemma and_then_keeps_sizes {A B} (f : OSMStore → result A * OSMStore)
    (k : A → OSMStore → result B * OSMStore) :
  keeps_sizes f → (∀ a, keeps_sizes (k a)) →
  keeps_sizes (fun st => and_then (f st) k).
Proof.
  intros Hf Hk s r s'. destruct (f s) as [r1 s1] eqn:Hf1.
  destruct (Hf _ _ _ Hf1) as [Hfs Hms].
  destruct r1 as [a| | |]; simpl; try (by intros [= _ <-]).
  intros Hk1. destruct (Hk a _ _ _ Hk1) as [-> ->]. done.
Qed.

Lemma apply_mutation_sizes fuel op st r st' :
  apply_mutation fuel op st = (r, st') →
  ∃ k, file_size st' = file_size (grow_times k st) ∧
       map_size st' = map_size (grow_times k st).
Proof.
  destruct op as [i coord|i nodeVec|i o n|g input|g src|g src];
    cbn [apply_mutation]; intros Hrun;
    try (apply discard_state in Hrun as ->).
  - revert Hrun. apply perform_sizes. intros s r1 s1.
    unfold impl_nodes_insert_back.
    destruct (node_store (mmap_file s)) as [v|m].
    + by destruct (NodeStoreCompact.insert_back i coord v); intros [= _ <-].
    + apply (allocating_keeps_sizes
               (fun st => set_node_store
                            (Sparse (NodeStore.insert_back i coord m))
                            (mmap_file st))).
  - destruct (ways_insert_back fuel i nodeVec st) as [r1 s1] eqn:Hp.
    revert Hp. apply perform_sizes.
    apply (allocating_keeps_sizes
             (fun st => set_way_store
                          (WayStore.insert_back
                             i nodeVec (way_store (mmap_file st))).1
                          (mmap_file st))).
  - destruct (relations_insert_front fuel i o n st) as [r1 s1] eqn:Hp.
    revert Hp. apply perform_sizes.
    apply (allocating_keeps_sizes
             (fun st => set_relation_store
                          (RelationStore.insert_front
                             i o n (relation_store (mmap_file st))).1
                          (mmap_file st))).
  - unfold store_point.
    destruct (perform_mmap_operation fuel _ st) as [r1 s1] eqn:Hp.
    apply perform_sizes in Hp; [by destruct r1|].
    apply (allocating_keeps_sizes (fun st => set_generated g _ (mmap_file st))).
  - unfold store_linestring.
    destruct (perform_mmap_operation fuel _ st) as [r1 s1] eqn:Hp.
    apply perform_sizes in Hp; [by destruct r1|].
    apply (and_then_keeps_sizes
             (fun st => allocating (set_generated g _ (mmap_file st)) tt st)).
    + apply (allocating_keeps_sizes
               (fun st => set_generated g _ (mmap_file st))).
    + intros _.
      apply (allocating_keeps_sizes
               (fun st => set_generated g _ (mmap_file st))).
  - unfold store_multi_polygon.
    destruct (perform_mmap_operation fuel _ st) as [r1 s1] eqn:Hp.
    apply perform_sizes in Hp; [by destruct r1|].
    apply (allocating_keeps_sizes (fun st => set_generated g _ (mmap_file st))).
Qed.

Lemma grow_times_add j k st :
  grow_times (j + k) st = grow_times k (grow_times j st).
Proof.
  revert st. induction j as [|j IH]; intros st; [done|].
  change (S j + k) with (S (j + k)). rewrite !grow_times_succ. apply IH.
Qed.

End Sizes.

(** X19. Across any sequence of mutations the two sizes of the store change
    only by growth steps of the retry loop: the size of the file and
    [map_size] are, after the mutations, what some number of doublings makes
    of them, and the file is never smaller than before. No mutation
    shrinks the file or sets the sizes in any other way. *)
Theorem mutations_only_grow_the_file `{SM : SegmentManager} (fuel : nat)
    (ops : list mutation) (st st' : OSMStore) :
  run_mutations fuel ops st = Some st' →
  (file_size st ≤ file_size st')%N ∧
  ∃ k, file_size st' = file_size (grow_times k st) ∧
       getMemorySize st' = getMemorySize (grow_times k st).
Proof.
  intros Hrun.
  assert (∃ k, file_size st' = file_size (grow_times k st) ∧
               map_size st' = map_size (grow_times k st)) as (k & Hf & Hm).
  { revert st Hrun. induction ops as [|op ops IH]; intros st; simpl.
    { intros [= <-]. by exists 0. }
    destruct (apply_mutation fuel op st) as [r s1] eqn:Hop.
    apply apply_mutation_sizes in Hop as (j & Hjf & Hjm).
    intros Hrun.
    assert (run_mutations fuel ops s1 = Some st') as Hrest
      by (by destruct r).
    apply IH in Hrest as (k & -> & ->).
    exists (j + k). rewrite grow_times_add. by apply grow_times_sizes. }
  split; [rewrite Hf; apply grow_times_file_size_le|].
  by exists k.
Qed.

Lemma mutations_only_grow_the_file_witness :
  (file_size tiny_store
   ≤ file_size
       (default tiny_store
          (run_mutations (SM := example_manager) 4
             [insert_way 5 [1; 2]%N; insert_node 7 (mkLatpLon 1 1)]
             tiny_store)))%N.
Proof.
  assert (run_mutations (SM := example_manager) 4
            [insert_way 5 [1; 2]%N; insert_node 7 (mkLatpLon 1 1)] tiny_store
          = Some (default tiny_store
                    (run_mutations (SM := example_manager) 4
                       [insert_way 5 [1; 2]%N; insert_node 7 (mkLatpLon 1 1)]
                       tiny_store))) as Hrun
    by (vm_compute; reflexivity).
  exact (proj1 (mutations_only_grow_the_file
                  (SM := example_manager) _ _ _ _ Hrun)).
Defined.

(** ** What [clear] forgets and what it keeps *)

(** X20. [clear()] empties the way store, so that every lookup of a way
    fails with the exception that names the id and every way handle is left
    dangling, but it does not touch the generated geometries: their handles
    resolve as before. A way can then be inserted again under an id that
    was in use before [clear()], and it is the new node list that is
    stored. *)
Theorem clear_forgets_ways_keeps_geometries `{SM : SegmentManager}
    (st : OSMStore) :
  (∀ i, ways_at (clear st) i
        = Raise (out_of_range ("Could not find way " +:+ pretty i))) ∧
  (∀ h, retrieve_way (clear st) h = Undefined) ∧
  (∀ h, retrieve_point (clear st) h = retrieve_point st h) ∧
  (∀ h, retrieve_linestring (clear st) h = retrieve_linestring st h) ∧
  (∀ h, retrieve_multi_polygon (clear st) h = retrieve_multi_polygon st h) ∧
  (∀ fuel i nodeVec h st',
     ways_insert_back fuel i nodeVec (clear st) = (Val h, st') →
     retrieve_way st' h = Val nodeVec ∧ ways_size st' = 1).
Proof.
  split; [done|]. split; [by intros [| | | |]|].
  split; [by intros [| |[] ?| |]|]. split; [by intros [| | |[] ?|]|].
  split; [by intros [| | | |[] ?]|].
  intros fuel i nodeVec h st' Hrun.
  apply (perform_allocating_result
           (fun seg => set_way_store
                         (WayStore.insert_back i nodeVec (way_store seg)).1 seg))
    in Hrun as (-> & st0 & _ & -> & _).
  unfold retrieve_way, ways_size, WayStore.at_, WayStore.insert_back,
    WayStore.size, clear, WayStore.clear.
  simpl. rewrite lookup_empty. simpl. rewrite lookup_insert_eq. simpl.
  split; [done|]. by rewrite insert_empty, map_size_singleton.
Qed.

(** ** Relation -> MultiPolygon *)





(** ** Ways given in the order of the ring *)

Lemma open_way_not_closed way : open_way way → isClosed way = Val false.
Proof.
  intros (a & b & Ha & Hb & Hne). unfold isClosed, front, back.
  rewrite Ha, Hb. simpl. by apply N.eqb_neq in Hne as ->.
Qed.

(** A pass that starts without any chain joins nothing. *)
Lemma merge_ways_no_chain ways its : ∀ ws d,
  Forall2 (fun it w => ways !! it = Some w ∧ open_way w) its ws →
  ∃ d', merge_ways ways its ([], d, 0%Z) = Val ([], d', 0%Z) ∧
        ∀ j, is_done d' j = is_done d j.
Proof.
  induction its as [|it its IH]; intros ws d Hways.
  { exists d. by split. }
  apply Forall2_cons_inv_l in Hways as (w & ws' & [Hw Hopen] & Hways & ->).
  cbn [merge_ways]. unfold merge_way at 1.
  destruct (done_at it d) as [skip d1] eqn:Hd.
  apply done_at_spec in Hd as [-> Hsame].
  destruct (IH ws' d1 Hways) as (d' & Hrun & Hsame').
  assert (∀ j, is_done d' j = is_done d j) as Hall
    by (intros j; by rewrite Hsame').
  destruct (is_done d it); simpl; [by exists d'|].
  unfold WayStore.at_. rewrite Hw. simpl.
  rewrite (open_way_not_closed _ Hopen). simpl.
  destruct Hopen as (a & b & Ha & Hb & Hne). unfold front, back.
  rewrite Ha, Hb. simpl. by exists d'.
Qed.

(** With one chain that ends where the next way starts, a pass appends the
    ways one after the other. *)
Lemma merge_ways_chained ways its : ∀ ws c b d a,
  NoDup its →
  (∀ it, it ∈ its → is_done d it = false) →
  Forall2 (fun it w => ways !! it = Some w) its ws →
  c ≠ [] → last c = Some b → chained b ws →
  ∃ d',
    merge_ways ways its ([c], d, a)
    = Val ([c ++ concat ws], d', (a + Z.of_nat (length its))%Z) ∧
    (∀ j, is_done d j = true → is_done d' j = true) ∧
    (∀ it, it ∈ its → is_done d' it = true).
Proof.
  induction its as [|it its IH]; intros ws c b d a Hnodup Hundone Hways Hc Hb Hch.
  { apply Forall2_nil_inv_l in Hways as ->. exists d. simpl.
    rewrite app_nil_r, Z.add_0_r. split; [done|]. split; [done|].
    by intros it Hit%elem_of_nil. }
  apply Forall2_cons_inv_l in Hways as (w & ws' & Hw & Hways & ->).
  destruct Hch as (Hopen & Hhead & b' & Hlast & Hch).
  apply NoDup_cons in Hnodup as [Hnotin Hnodup].
  cbn [merge_ways]. unfold merge_way at 1.
  destruct (done_at it d) as [skip d1] eqn:Hd.
  apply done_at_spec in Hd as [-> Hsame].
  rewrite (Hundone it) by (apply elem_of_cons; by left).
  unfold WayStore.at_. rewrite Hw. simpl.
  rewrite (open_way_not_closed _ Hopen). simpl.
  destruct Hopen as (a0 & b0 & Ha0 & Hb0 & Hne).
  assert (a0 = b) as -> by congruence. assert (b0 = b') as -> by congruence.
  unfold front, back. rewrite Ha0, Hb0. simpl.
  destruct (head c) as [cf|] eqn:Hcf; [|by apply head_None in Hcf].
  rewrite Hb. simpl. apply N.eqb_neq in Hne. rewrite Hne, N.eqb_refl. simpl.
  destruct (IH ws' (c ++ w) b' (<[it := true]> d1) (a + 1)%Z)
    as (d' & Hrun & Hmono & Hall).
  - done.
  - intros j Hj. rewrite is_done_insert_ne by (intros ->; done).
    rewrite Hsame. apply Hundone, elem_of_cons. by right.
  - done.
  - intros Hnil. by apply app_eq_nil in Hnil as [? _].
  - destruct w as [|n w]; [done|]. by rewrite last_app_cons.
  - done.
  - exists d'. split; [|split].
    + rewrite Hrun. simpl. rewrite <- app_assoc. do 2 f_equal. lia.
    + intros j Hj. apply Hmono. destruct (decide (it = j)) as [->|Hne'].
      * apply is_done_insert_true.
      * rewrite is_done_insert_ne by done. by rewrite Hsame.
    + intros j Hj. apply elem_of_cons in Hj as [->|Hj]; [|by apply Hall].
      apply Hmono, is_done_insert_true.
Qed.

Lemma merge_unfold fuel ways its results (d : gmap Z bool) :
  mergeMultiPolygonWays (S fuel) ways its results d
  = ('(results, done, added) ← merge_pass ways its results d;
     if (0 <? added)%Z then mergeMultiPolygonWays fuel ways its results done
     else Val (results, done)).
Proof. reflexivity. Qed.

Lemma chained_open b ws : chained b ws → Forall open_way ws.
Proof.
  revert b. induction ws as [|w ws IH]; intros b Hch; [done|].
  destruct Hch as (Hopen & _ & b' & _ & Hch). constructor; [done|by eapply IH].
Qed.

(** X22. Open ways listed in the order of the ring, each starting at the
    node where the one before ends, none of them marked done, are stitched
    into a single chain: the node lists of the ways one after the other, in
    the order given (each shared node twice).  Three passes are enough
    whatever the number of ways. *)
Theorem ways_in_ring_order_are_stitched (ways : gmap Z (list N))
    (it1 : WayID) (its : WayVec) (w1 : list N) (ws : list (list N))
    (b : N) (done : gmap Z bool) (fuel : nat) :
  NoDup (it1 :: its) →
  (∀ it, it ∈ it1 :: its → is_done done it = false) →
  Forall2 (fun it w => ways !! it = Some w) (it1 :: its) (w1 :: ws) →
  open_way w1 → last w1 = Some b → chained b ws →
  ∃ done',
    mergeMultiPolygonWays (3 + fuel) ways (it1 :: its) [] done
    = Val ([w1 ++ concat ws], done').
Proof.
  intros Hnodup Hundone Hways Hopen Hlast Hch.
  apply Forall2_cons in Hways as [Hw1 Hws].
  apply NoDup_cons in Hnodup as [Hnotin Hnodup].
  destruct (merge_ways_no_chain ways (it1 :: its) (w1 :: ws) done)
    as (d1 & Hpass1 & Hsame1).
  { constructor; [done|]. pose proof (chained_open _ _ Hch) as Hall.
    clear -Hws Hall. induction Hws; [constructor|].
    apply Forall_cons in Hall as [? ?]. constructor; [done|by apply IHHws]. }
  change (3 + fuel) with (S (S (S fuel))).
  rewrite merge_unfold. unfold merge_pass at 1.
  rewrite Hpass1. cbn [mbind result_bind Z.eqb seed_way].
  destruct (done_at it1 d1) as [skip d1'] eqn:Hd1.
  apply done_at_spec in Hd1 as [-> Hsame1'].
  rewrite Hsame1, (Hundone it1) by (apply elem_of_cons; by left).
  unfold WayStore.at_ at 1. rewrite Hw1.
  cbn [mbind result_bind from_option Z.ltb Z.compare app].
  set (d2 := <[it1 := true]> d1').
  assert (w1 ≠ []) as Hne1 by (by destruct w1).
  destruct (merge_ways_chained ways its ws w1 b d2 0%Z)
    as (d3 & Hpass2 & Hmono & Hall); try done.
  { intros it Hit. unfold d2.
    rewrite is_done_insert_ne by (intros ->; done).
    rewrite Hsame1', Hsame1. apply Hundone, elem_of_cons. by right. }
  assert (∀ it, it ∈ it1 :: its → d3 !! it = Some true) as Hdone3.
  { intros it Hit. apply is_done_true.
    apply elem_of_cons in Hit as [->|Hit]; [|by apply Hall].
    apply Hmono, is_done_insert_true. }
  rewrite merge_unfold. unfold merge_pass at 1.
  cbn [merge_ways]. unfold merge_way at 1.
  rewrite (done_at_done it1 d2) by apply lookup_insert_eq.
  cbn [mbind result_bind]. rewrite Hpass2. cbn [mbind result_bind].
  exists d3. destruct its as [|it2 its].
  - cbn [length Z.of_nat Z.add Z.eqb]. rewrite seed_way_all_done by done.
    done.
  - replace (0 + Z.of_nat (length (it2 :: its)) =? 0)%Z with false
      by (symmetry; apply Z.eqb_neq; simpl; lia).
    replace (0 <? 0 + Z.of_nat (length (it2 :: its)))%Z with true
      by (symmetry; apply Z.ltb_lt; simpl; lia).
    by apply merge_all_done.
Qed.

Lemma ways_in_ring_order_are_stitched_witness :
  ∃ done',
    mergeMultiPolygonWays 3 triangle_ways [300; 301; 302]%Z [] ∅
    = Val ([[1; 2; 2; 3; 3; 1]%N], done').
Proof.
  apply (ways_in_ring_order_are_stitched triangle_ways 300%Z [301; 302]%Z
           [1; 2]%N [[2; 3]; [3; 1]]%N 2%N ∅ 0).
  - apply (bool_decide_unpack _). by vm_compute.
  - done.
  - repeat constructor.
  - exists 1%N, 2%N. by repeat split.
  - done.
  - simpl. repeat split; try done.
    + exists 2%N, 3%N. by repeat split.
    + exists 3%N. repeat split; try done.
      * exists 3%N, 1%N. by repeat split.
      * by exists 1%N.
Defined.
